(** * gp4ps: generalized pose from four points with unknown scale

    A shallow embedding of [poselib::gp4ps] (PoseLib/gp4ps.cc) and the
    properties of its elimination and back-substitution pipeline.

    Scalars ([double] in the source) are kept abstract: a carrier [F] with
    the operations the source uses (the literal [0.0], [+], binary and unary
    [-], [*]).  Theorems that only follow the data flow need no law about
    them, so they hold for any arithmetic, rounding included; theorems about
    the algebra are stated under the ring laws, that is for exact
    arithmetic.

    Eigen's fixed-size matrices are nested tuples whose sizes are part of
    the type, [std::vector] is [list], and the output vector is passed in
    and returned.  An element access past the end of a [std::vector] or of
    a matrix (undefined behaviour in the source) makes the embedded function
    return [None].  The routines gp4ps calls and does not define (Eigen's
    [inverse], re3q3's [rotation_to_3q3], [re3q3] and [cayley_param]) are
    the fields of a class. *)

From Stdlib Require Import ZArith List Lia Ring Bool Permutation.
From Stdlib Require Import Sorted.
Import ListNotations.

(** ** Option monad for accesses that may be out of range *)

Definition obind {A B : Type} (o : option A) (k : A -> option B) : option B :=
  match o with
  | Some a => k a
  | None => None
  end.

Notation "x <- e ;; k" := (obind e (fun x => k))
  (at level 61, e at next level, right associativity).

(** ** Fixed-size tuples *)

Fixpoint tup (T : Type) (n : nat) : Type :=
  match n with
  | O => unit
  | S m => (T * tup T m)%type
  end.

Notation "[< >]" := tt (format "[< >]").
Notation "[< a ; .. ; z >]" := (pair a .. (pair z tt) ..)
  (format "[< a ;  .. ;  z >]").

Section Tuples.
Context {T U V : Type}.

Fixpoint tmap (f : T -> U) {n : nat} : tup T n -> tup U n :=
  match n with
  | O => fun _ => tt
  | S m => fun v => (f (fst v), tmap f (snd v))
  end.

Fixpoint tmap2 (f : T -> U -> V) {n : nat} : tup T n -> tup U n -> tup V n :=
  match n with
  | O => fun _ _ => tt
  | S m => fun u v => (f (fst u) (fst v), tmap2 f (snd u) (snd v))
  end.

Fixpoint tconst (a : T) (n : nat) : tup T n :=
  match n with
  | O => tt
  | S m => (a, tconst a m)
  end.

Fixpoint to_list {n : nat} : tup T n -> list T :=
  match n with
  | O => fun _ => []
  | S m => fun v => fst v :: to_list (snd v)
  end.

(** Checked read of component [i]. *)
Fixpoint tnth {n : nat} : tup T n -> nat -> option T :=
  match n with
  | O => fun _ _ => None
  | S m => fun v i =>
      match i with
      | O => Some (fst v)
      | S j => tnth (snd v) j
      end
  end.

(** Checked write of component [i]. *)
Fixpoint tset {n : nat} (i : nat) (a : T) : tup T n -> option (tup T n) :=
  match n with
  | O => fun _ => None
  | S m => fun v =>
      match i with
      | O => Some (a, snd v)
      | S j => w <- tset j a (snd v) ;; Some (fst v, w)
      end
  end.

(** The first [n] components, and what is left after them. *)
Fixpoint ttake (n : nat) {k : nat} : tup T (n + k) -> tup T n :=
  match n with
  | O => fun _ => tt
  | S m => fun v => (fst v, ttake m (snd v))
  end.

Fixpoint tskip (n : nat) {k : nat} : tup T (n + k) -> tup T k :=
  match n with
  | O => fun v => v
  | S m => fun v => tskip m (snd v)
  end.

Fixpoint tapp {n k : nat} : tup T n -> tup T k -> tup T (n + k) :=
  match n with
  | O => fun _ w => w
  | S m => fun v w => (fst v, tapp (snd v) w)
  end.

(** All components present, or none. *)
Fixpoint tseq {n : nat} : tup (option T) n -> option (tup T n) :=
  match n with
  | O => fun _ => Some tt
  | S m => fun v => a <- fst v ;; w <- tseq (snd v) ;; Some (a, w)
  end.
End Tuples.

(** Constant-index component reads, [v(0)] .. [v(3)]: in range by typing. *)
Definition c0 {T U : Type} (v : T * U) : T := fst v.
Definition c1 {T U V : Type} (v : T * (U * V)) : U := fst (snd v).
Definition c2 {T U V W : Type} (v : T * (U * (V * W))) : V :=
  fst (snd (snd v)).
Definition c3 {T U V W Y : Type} (v : T * (U * (V * (W * Y)))) : W :=
  fst (snd (snd (snd v))).

(** ** Scalars and matrices *)

(** The arithmetic of the source on [double]: the literal [0.0], [+], binary
    and unary [-], and [*].  [f1] is not used by the solver; it is there to
    state what an inverse is. *)
Class Scalar (F : Type) : Type := {
  f0 : F;
  f1 : F;
  fadd : F -> F -> F;
  fsub : F -> F -> F;
  fmul : F -> F -> F;
  fopp : F -> F
}.

Declare Scope F_scope.
Delimit Scope F_scope with F.
Notation "a + b" := (fadd a b) : F_scope.
Notation "a - b" := (fsub a b) : F_scope.
Notation "a * b" := (fmul a b) : F_scope.
Notation "- a" := (fopp a) : F_scope.

(** [Eigen::Matrix<double, r, c>]: [r] rows of [c] scalars. *)
Definition Matrix (F : Type) (r c : nat) : Type := tup (tup F c) r.
Definition Vector3d (F : Type) : Type := tup F 3.
Definition Vector4d (F : Type) : Type := tup F 4.
Definition Matrix3d (F : Type) : Type := Matrix F 3 3.
Definition Matrix4d (F : Type) : Type := Matrix F 4 4.

Record CameraPose (F : Type) : Type := mkCameraPose {
  R : Matrix3d F;
  t : Vector3d F;
  alpha : F
}.
Arguments mkCameraPose {F} _ _ _.
Arguments R {F} _.
Arguments t {F} _.
Arguments alpha {F} _.

(** The routines the solver calls and does not define: the inverse of
    Eigen and the three entry points of the re3q3 library.  [re3q3] returns
    its [int] result together with the 3x8 matrix it writes through its
    second argument. *)
Class External (F : Type) : Type := {
  inverse : Matrix4d F -> Matrix4d F;
  rotation_to_3q3 : Matrix F 3 9 -> Matrix F 3 10;
  re3q3 : Matrix F 3 10 -> Z * Matrix F 3 8;
  cayley_param : Vector3d F -> Matrix3d F
}.

Section Kernels.
Context {F : Type} `{Scalar F}.
Local Open Scope F_scope.

Fixpoint dot {n : nat} : tup F n -> tup F n -> F :=
  match n with
  | O => fun _ _ => f0
  | S m => fun u v => fst u * fst v + dot (snd u) (snd v)
  end.

Definition vzero (n : nat) : tup F n := tconst f0 n.
Definition vadd {n} (u v : tup F n) : tup F n := tmap2 fadd u v.
Definition vsub {n} (u v : tup F n) : tup F n := tmap2 fsub u v.
Definition vopp {n} (u : tup F n) : tup F n := tmap fopp u.
Definition vscale {n} (a : F) (u : tup F n) : tup F n := tmap (fmul a) u.

(** Row vector times matrix: the combination of the rows of [N] weighted
    by the components of [u]. *)
Fixpoint vmmul {k c : nat} : tup F k -> Matrix F k c -> tup F c :=
  match k with
  | O => fun _ _ => vzero c
  | S m => fun u N => vadd (vscale (fst u) (fst N)) (vmmul (snd u) (snd N))
  end.

Definition mzero (r c : nat) : Matrix F r c := tconst (vzero c) r.
Definition mmul {r k c} (M : Matrix F r k) (N : Matrix F k c)
    : Matrix F r c :=
  tmap (fun row => vmmul row N) M.
Definition mvmul {r c} (M : Matrix F r c) (v : tup F c) : tup F r :=
  tmap (fun row => dot row v) M.
Definition msub {r c} (M N : Matrix F r c) : Matrix F r c := tmap2 vsub M N.
Definition mopp {r c} (M : Matrix F r c) : Matrix F r c := tmap vopp M.

(** The identity, to say what [inverse] is expected to return. *)
Fixpoint mone (n : nat) : Matrix F n n :=
  match n with
  | O => tt
  | S m => ((f1, vzero m), tmap (fun row : tup F m => (f0, row)) (mone m))
  end.

(** [A.block<r, c>(i, j)]: the sizes of what lies after the block, [k]
    rows and [l] columns, are part of the type of [A]. *)
Definition block (i j r c : nat) {k l : nat}
    (A : Matrix F (i + (r + k)) (j + (c + l))) : Matrix F r c :=
  tmap (fun row : tup F (j + (c + l)) => ttake c (tskip j row))
       (ttake r (tskip i A)).

(** [M.col(i)]: checked, the source reads a column chosen at run time. *)
Definition col {r c} (M : Matrix F r c) (i : nat) : option (tup F r) :=
  tseq (tmap (fun row => tnth row i) M).

(** [Eigen::Map<Eigen::Matrix<double, 9, 1>>(R.data())]: the storage of a
    3x3 matrix read as a 9-vector.  Eigen stores column by column. *)
Definition data (M : Matrix3d F) : tup F 9 :=
  let r0 := c0 M in
  let r1 := c1 M in
  let r2 := c2 M in
  [< c0 r0; c0 r1; c0 r2; c1 r0; c1 r1; c1 r2; c2 r0; c2 r1; c2 r2 >].
End Kernels.

(** ** The solver *)

Section Solver.
Context {F : Type} `{Scalar F} `{External F}.
Local Open Scope F_scope.

(** *** gp4ps.cc, lines 40-46: filling the coefficient matrix *)

(** Row [2 * i]. *)
Definition row_even (pi xi Xi : Vector3d F) : tup F 13 :=
  [< c2 xi; f0; - c0 xi; - c0 pi * c2 xi + c2 pi * c0 xi;
     c0 Xi * c2 xi; f0; - c0 Xi * c0 xi;
     c1 Xi * c2 xi; f0; - c1 Xi * c0 xi;
     c2 Xi * c2 xi; f0; - c2 Xi * c0 xi >].

(** Row [2 * i + 1]. *)
Definition row_odd (pi xi Xi : Vector3d F) : tup F 13 :=
  [< f0; c2 xi; - c1 xi; - c1 pi * c2 xi + c2 pi * c1 xi;
     f0; c0 Xi * c2 xi; - c0 Xi * c1 xi;
     f0; c1 Xi * c2 xi; - c1 Xi * c1 xi;
     f0; c2 Xi * c2 xi; - c2 Xi * c1 xi >].

(** The loop [for (int i = 0; i < 4; ++i)], with [k] iterations left.
    Reading [x[i]], [p[i]] or [X[i]] past the end of the vector has no
    defined result. *)
Fixpoint fill_loop (p x X : list (Vector3d F)) (k i : nat)
    (A : Matrix F 8 13) : option (Matrix F 8 13) :=
  match k with
  | O => Some A
  | S k' =>
      xi <- nth_error x i ;;
      pi <- nth_error p i ;;
      Xi <- nth_error X i ;;
      A1 <- tset (2 * i) (row_even pi xi Xi) A ;;
      A2 <- tset (2 * i + 1) (row_odd pi xi Xi) A1 ;;
      fill_loop p x X k' (S i) A2
  end.

(** [A] is declared without initialiser; the loop writes every row, so
    the start value does not show in the result ([fill_loop_init]). *)
Definition fill_A (p x X : list (Vector3d F)) : option (Matrix F 8 13) :=
  fill_loop p x X 4 0 (mzero 8 13).

(** *** gp4ps.cc, lines 48-50: elimination *)

Definition elim_B (A : Matrix F 8 13) : Matrix4d F :=
  inverse (block 0 0 4 4 (k := 4) (l := 9) A).

Definition elim_AR (A : Matrix F 8 13) (B : Matrix4d F) : Matrix F 3 9 :=
  msub (block 4 4 3 9 (k := 1) (l := 0) A)
       (mmul (mmul (block 4 0 3 4 (k := 1) (l := 9) A) B)
             (block 0 4 4 9 (k := 4) (l := 0) A)).

(** *** gp4ps.cc, lines 59-67: one pose per root *)

(** [ts = -B * (A.block<4, 9>(0, 4) * vec(R))]. *)
Definition back_substitute (A : Matrix F 8 13) (B : Matrix4d F)
    (Rm : Matrix3d F) : Vector4d F :=
  mvmul (mopp B) (mvmul (block 0 4 4 9 (k := 4) (l := 0) A) (data Rm)).

Definition make_pose (A : Matrix F 8 13) (B : Matrix4d F) (s : Vector3d F)
    : CameraPose F :=
  let Rm := cayley_param s in
  let ts := back_substitute A B Rm in
  {| R := Rm;
     t := ttake 3 (k := 1) ts;
     alpha := c3 ts |}.

(** The loop [for (int i = 0; i < n_sols; ++i)], with [k] iterations
    left.  [solutions] has 8 columns; reading another one has no defined
    result. *)
Fixpoint pose_loop (A : Matrix F 8 13) (B : Matrix4d F)
    (solutions : Matrix F 3 8) (k i : nat) (output : list (CameraPose F))
    : option (list (CameraPose F)) :=
  match k with
  | O => Some output
  | S k' =>
      s <- col solutions i ;;
      pose_loop A B solutions k' (S i) (output ++ [make_pose A B s])
  end.

(** *** The solver: the count it returns and the output vector after the
    call *)

Definition gp4ps (p x X : list (Vector3d F)) (output : list (CameraPose F))
    : option (Z * list (CameraPose F)) :=
  A <- fill_A p x X ;;
  let B := elim_B A in
  let AR := elim_AR A B in
  let coeffs := rotation_to_3q3 AR in
  let n_sols := fst (re3q3 coeffs) in
  let solutions := snd (re3q3 coeffs) in
  output' <- pose_loop A B solutions (Z.to_nat n_sols) 0 output ;;
  Some (n_sols, output').

End Solver.

(** ** Vocabulary of the statements *)

Section Statements.
Context {F : Type} `{Scalar F} `{External F}.
Local Open Scope F_scope.

(** The unknown vector [[t; scale; vec(R)]] of the comment at line 42. *)
Definition unknowns (pose : CameraPose F) : tup F 13 :=
  tapp (t pose) ((alpha pose, data (R pose)) : tup F 10).

(** [xx = [x3 0 -x1; 0 x3 -x2]] of the comment at line 41: its two rows
    span the plane orthogonal to the ray direction. *)
Definition xx (xi : Vector3d F) : Matrix F 2 3 :=
  [< [< c2 xi; f0; - c0 xi >]; [< f0; c2 xi; - c1 xi >] >].

(** [scale * p + lambda * x - (R * X + t)], from the comment at line 34. *)
Definition residual (pose : CameraPose F) (pi xi Xi : Vector3d F)
    (lambda : F) : Vector3d F :=
  vsub (vadd (vscale (alpha pose) pi) (vscale lambda xi))
       (vadd (mvmul (R pose) Xi) (t pose)).

(** [kron(X', w)] for a 3-vector [w]: each entry of [X] times [w]. *)
Definition kron3 (Xi w : Vector3d F) : tup F 9 :=
  tapp (vscale (c0 Xi) w) (tapp (vscale (c1 Xi) w) (vscale (c2 Xi) w)).

(** Entry [(i, j)] of a matrix, for [i] and [j] in range, and the sum of
    [f 0], ..., [f (n - 1)]. *)
Definition ent {r c} (M : Matrix F r c) (i j : nat) : F :=
  match tnth M i with
  | Some row => match tnth row j with
                | Some a => a
                | None => f0
                end
  | None => f0
  end.

Fixpoint fsum (n : nat) (f : nat -> F) : F :=
  match n with
  | O => f0
  | S m => fsum m f + f m
  end.

(** The columns [i], [i + 1], ..., [i + k - 1] of [solutions]. *)
Fixpoint roots_from (solutions : Matrix F 3 8) (k i : nat)
    : option (list (Vector3d F)) :=
  match k with
  | O => Some []
  | S k' =>
      s <- col solutions i ;;
      ss <- roots_from solutions k' (S i) ;;
      Some (s :: ss)
  end.

(** Correspondence [i], read in the order of the source: [x[i]], [p[i]],
    [X[i]]; and the matrix of four correspondences. *)
Definition corr (p x X : list (Vector3d F)) (i : nat)
    : option (Vector3d F * Vector3d F * Vector3d F) :=
  xi <- nth_error x i ;;
  pi <- nth_error p i ;;
  Xi <- nth_error X i ;;
  Some (pi, xi, Xi).

Definition even_of (q : Vector3d F * Vector3d F * Vector3d F) : tup F 13 :=
  row_even (fst (fst q)) (snd (fst q)) (snd q).
Definition odd_of (q : Vector3d F * Vector3d F * Vector3d F) : tup F 13 :=
  row_odd (fst (fst q)) (snd (fst q)) (snd q).

Definition system_of (q0 q1 q2 q3 : Vector3d F * Vector3d F * Vector3d F)
    : Matrix F 8 13 :=
  [< even_of q0; odd_of q0; even_of q1; odd_of q1;
     even_of q2; odd_of q2; even_of q3; odd_of q3 >].

(** What the solver hands to, and gets from, the re3q3 library. *)
Definition stage_AR (A : Matrix F 8 13) : Matrix F 3 9 :=
  elim_AR A (elim_B A).
Definition n_sols_of (A : Matrix F 8 13) : Z :=
  fst (re3q3 (rotation_to_3q3 (stage_AR A))).
Definition solutions_of (A : Matrix F 8 13) : Matrix F 3 8 :=
  snd (re3q3 (rotation_to_3q3 (stage_AR A))).

(** Modelled from the spec: the interface of the root finder [re3q3], whose
    code is not among the sources.  It returns the count of the real roots
    it found, between 0 and 8, and as many solution columns. *)
Definition re3q3_in_range (A : Matrix F 8 13) : Prop :=
  (0 <= n_sols_of A <= 8)%Z.

(** The pose built from a root. *)
Definition pose_of_root (A : Matrix F 8 13) (s : Vector3d F) : CameraPose F :=
  make_pose A (elim_B A) s.

(** [A[0:4, 0:4]]. *)
Definition leading_block (A : Matrix F 8 13) : Matrix4d F :=
  block 0 0 4 4 (k := 4) (l := 9) A.

(** What exact collaborators do on the system [A].  The inverse returned
    is an inverse of the leading block. *)
Definition exact_inverse (A : Matrix F 8 13) : Prop :=
  mmul (leading_block A) (elim_B A) = mone 4 /\
  mmul (elim_B A) (leading_block A) = mone 4.

(** A rotation that solves the reduced system: [AR * vec(R) = 0]. *)
Definition is_root (A : Matrix F 8 13) (Rm : Matrix3d F) : Prop :=
  mvmul (stage_AR A) (data Rm) = vzero 3.

(** A parameter vector among the first [n_sols] columns of the solutions. *)
Definition returned_root (A : Matrix F 8 13) (s : Vector3d F) : Prop :=
  exists i, (i < Z.to_nat (n_sols_of A))%nat /\ col (solutions_of A) i = Some s.

(** The roots returned solve the reduced system, through the
    parameterization. *)
Definition exact_roots (A : Matrix F 8 13) : Prop :=
  forall s, returned_root A s -> is_root A (cayley_param s).

(** No rotation in the range of the parameterization that solves the
    reduced system is missed. *)
Definition all_roots (A : Matrix F 8 13) : Prop :=
  forall s, is_root A (cayley_param s) ->
    exists s', returned_root A s' /\ cayley_param s' = cayley_param s.

(** The poses a call appends: what is in the output after the elements
    that were there before. *)
Definition appended (output output' : list (CameraPose F))
    : list (CameraPose F) :=
  skipn (length output) output'.

(** The input sequences in the order [sigma]. *)
Definition reorder {T : Type} (sigma : list nat) (l : list T) : list T :=
  flat_map (fun i => match nth_error l i with
                     | Some v => [v]
                     | None => []
                     end) sigma.

(** Two vectors that differ at most in their second component. *)
Definition same_but_c1 (u v : Vector3d F) : Prop :=
  c0 u = c0 v /\ c2 u = c2 v.

(** Two sequences that differ at most in the second component of the
    element of index 3. *)
Definition same_but_31 (l l' : list (Vector3d F)) : Prop :=
  firstn 3 l = firstn 3 l' /\
  match nth_error l 3, nth_error l' 3 with
  | Some u, Some v => same_but_c1 u v
  | None, None => True
  | _, _ => False
  end.

(** All of it, with a count of at most 8. *)
Definition exact_collaborators (A : Matrix F 8 13) : Prop :=
  (exact_inverse A /\ exact_roots A /\ all_roots A) /\ (n_sols_of A <= 8)%Z.

(** The residual of a correspondence, projected on the plane orthogonal to
    its ray direction. *)
Definition projected_residual (pose : CameraPose F) (pi xi Xi : Vector3d F)
    (lambda : F) : tup F 2 :=
  mvmul (xx xi) (residual pose pi xi Xi lambda).

(** The claim that both components of the projected residual vanish for the
    four correspondences, for every pose appended, with exact
    collaborators. *)
Definition residuals_vanish : Prop :=
  forall (p x X : list (Vector3d F)) (output output' : list (CameraPose F))
         (A : Matrix F 8 13) (n : Z),
    fill_A p x X = Some A ->
    exact_collaborators A ->
    gp4ps p x X output = Some (n, output') ->
    forall pose, In pose (appended output output') ->
    forall i pi xi Xi lambda,
      i < 4 ->
      nth_error p i = Some pi -> nth_error x i = Some xi ->
      nth_error X i = Some Xi ->
      projected_residual pose pi xi Xi lambda = vzero 2.

(** Two calls that give the same set of poses. *)
Definition same_poses (r r' : option (Z * list (CameraPose F))) : Prop :=
  exists n out n' out',
    r = Some (n, out) /\ r' = Some (n', out') /\
    forall pose, In pose out <-> In pose out'.

(** The claim that any reordering of the four correspondences, the same in
    [p], [x] and [X], leaves the set of poses as it is, on inputs where the
    collaborators are exact before and after the reordering. *)
Definition permutation_invariant : Prop :=
  forall (sigma : list nat) (p x X : list (Vector3d F))
         (A A' : Matrix F 8 13),
    Permutation sigma [0; 1; 2; 3] ->
    length p = 4 -> length x = 4 -> length X = 4 ->
    fill_A p x X = Some A ->
    fill_A (reorder sigma p) (reorder sigma x) (reorder sigma X) = Some A' ->
    exact_collaborators A -> exact_collaborators A' ->
    same_poses (gp4ps p x X [])
               (gp4ps (reorder sigma p) (reorder sigma x) (reorder sigma X) []).

(** The Schur complement as the specification words it, on the four rows
    [A[4:8, .]]: [A[4:8, 4:13] - A[4:8, 0:4] * B * A[0:4, 4:13]]. *)
Definition schur_complement_spec (A : Matrix F 8 13) (B : Matrix4d F)
    : Matrix F 4 9 :=
  msub (block 4 4 4 9 (k := 0) (l := 0) A)
       (mmul (mmul (block 4 0 4 4 (k := 0) (l := 9) A) B)
             (block 0 4 4 9 (k := 4) (l := 0) A)).

(** The claim that the matrix handed to the rotation stage is that
    complement, row for row. *)
Definition elimination_on_four_rows : Prop :=
  forall (p x X : list (Vector3d F)) (A : Matrix F 8 13),
    fill_A p x X = Some A ->
    to_list (stage_AR A) = to_list (schur_complement_spec A (elim_B A)).

(** The claim that any sequence length other than 4 is rejected. *)
Definition rejects_wrong_shape : Prop :=
  forall (p x X : list (Vector3d F)) (output : list (CameraPose F)),
    length p <> 4 \/ length x <> 4 \/ length X <> 4 ->
    gp4ps p x X output = None.
End Statements.

(** ** A sample instance: integer scalars

    Small integers are [double] values on which [+], [-] and [*] are exact,
    so on the samples the arithmetic over [Z] is that of the source.  The
    collaborators are test doubles: an adjugate inverse, exact on matrices
    of determinant 1 or -1, and a parameterization and root finder over a
    family of two rotations, the identity and the quarter turn about the
    third axis, exact on that family ([sample_roots_exact]). *)

Module Sample.
#[export] Instance Z_scalar : Scalar Z :=
  {| f0 := 0%Z; f1 := 1%Z; fadd := Z.add; fsub := Z.sub; fmul := Z.mul;
     fopp := Z.opp |}.

(** Tuple without its component [i]. *)
Fixpoint tdel {T : Type} {n : nat} (i : nat) : T * tup T n -> tup T n :=
  match n with
  | O => fun _ => tt
  | S m => fun v =>
      match i with
      | O => snd v
      | S j => (fst v, tdel j (snd v))
      end
  end.

Fixpoint ttab {T : Type} (n : nat) (f : nat -> T) : tup T n :=
  match n with
  | O => tt
  | S m => (f O, ttab m (fun i => f (S i)))
  end.

Definition sign (i : nat) : Z := if Nat.even i then 1%Z else (-1)%Z.

(** Determinant, by expansion along the first row. *)
Fixpoint det (n : nat) : Matrix Z n n -> Z :=
  match n with
  | O => fun _ => 1%Z
  | S m => fun M =>
      fold_right Z.add 0%Z
        (map (fun j => (sign j * nth j (to_list (fst M)) 0
                        * det m (tmap (tdel (T := Z) (n := m) j) (snd M)))%Z)
             (seq 0 (S m)))
  end.

Definition minor (i j : nat) (M : Matrix Z 4 4) : Matrix Z 3 3 :=
  tmap (tdel (T := Z) (n := 3) j) (tdel (T := tup Z 4) (n := 3) i M).

Definition adj_inverse (M : Matrix4d Z) : Matrix4d Z :=
  ttab 4 (fun i => ttab 4 (fun j =>
    (sign (i + j) * det 3 (minor j i M) / det 4 M)%Z)).

Definition rotI : Matrix3d Z :=
  [< [< 1; 0; 0 >]; [< 0; 1; 0 >]; [< 0; 0; 1 >] >]%Z.
Definition rotZ : Matrix3d Z :=
  [< [< 0; -1; 0 >]; [< 1; 0; 0 >]; [< 0; 0; 1 >] >]%Z.

Definition is_zero3 (s : Vector3d Z) : bool :=
  Z.eqb (c0 s) 0 && Z.eqb (c1 s) 0 && Z.eqb (c2 s) 0.

Definition two_rotations (s : Vector3d Z) : Matrix3d Z :=
  if is_zero3 s then rotI else rotZ.

(** Column 9 holds the value of the system at the identity, column 8 its
    value at the quarter turn. *)
Definition two_coeffs (AR : Matrix Z 3 9) : Matrix Z 3 10 :=
  tmap (fun row : tup Z 9 =>
          [< 0; 0; 0; 0; 0; 0; 0; 0; dot row (data rotZ);
             dot row (data rotI) >]%Z) AR.

Definition column_zero (j : nat) (M : Matrix Z 3 10) : bool :=
  forallb (fun row => match tnth row j with
                      | Some a => Z.eqb a 0
                      | None => false
                      end) (to_list M).

Definition two_solve (coeffs : Matrix Z 3 10) : Z * Matrix Z 3 8 :=
  match column_zero 9 coeffs, column_zero 8 coeffs with
  | true, true =>
      (2, [< [< 0; 0; 0; 0; 0; 0; 0; 0 >];
             [< 0; 0; 0; 0; 0; 0; 0; 0 >];
             [< 0; 1; 0; 0; 0; 0; 0; 0 >] >])%Z
  | true, false => (1%Z, mzero 3 8)
  | false, true =>
      (1, [< [< 0; 0; 0; 0; 0; 0; 0; 0 >];
             [< 0; 0; 0; 0; 0; 0; 0; 0 >];
             [< 1; 0; 0; 0; 0; 0; 0; 0 >] >])%Z
  | false, false => (0%Z, mzero 3 8)
  end.

#[export] Instance Z_external : External Z :=
  {| inverse := adj_inverse;
     rotation_to_3q3 := two_coeffs;
     re3q3 := two_solve;
     cayley_param := two_rotations |}.

(** Four correspondences that two poses explain.  The identity with
    [t = 0] and scale 1 satisfies all of them: [X[i] = p[i] + lambda_i x[i]].
    The quarter turn with [t = (1, 0, 2)] and scale 2 satisfies the first
    three, and of the fourth the first equation only. *)
Definition p_ok : list (Vector3d Z) :=
  [ [< 3; -2; -1 >]; [< -1; 0; 0 >]; [< -2; -3; -2 >]; [< 2; 0; -4 >] ]%Z.
Definition x_ok : list (Vector3d Z) :=
  [ [< -1; 1; 1 >]; [< 1; 0; 1 >]; [< 2; 2; 2 >]; [< -1; 0; 3 >] ]%Z.
Definition X_ok : list (Vector3d Z) :=
  [ [< 1; 0; 1 >]; [< 0; 0; 1 >]; [< 0; -1; 0 >]; [< 1; 0; -1 >] ]%Z.

Definition identity_pose : CameraPose Z :=
  {| R := rotI; t := [< 0; 0; 0 >]%Z; alpha := 1%Z |}.
Definition turned_pose : CameraPose Z :=
  {| R := rotZ; t := [< 1; 0; 2 >]%Z; alpha := 2%Z |}.

(** The same with the second component of [p[3]], and of [x[3]], moved. *)
Definition p_off : list (Vector3d Z) :=
  [ [< 3; -2; -1 >]; [< -1; 0; 0 >]; [< -2; -3; -2 >]; [< 2; 5; -4 >] ]%Z.
Definition x_off : list (Vector3d Z) :=
  [ [< -1; 1; 1 >]; [< 1; 0; 1 >]; [< 2; 2; 2 >]; [< -1; 7; 3 >] ]%Z.

(** The same with [p[2]] moved: neither rotation solves the system. *)
Definition p_none : list (Vector3d Z) :=
  [ [< 3; -2; -1 >]; [< -1; 0; 0 >]; [< -2; -2; -2 >]; [< 2; 0; -4 >] ]%Z.

(** The orders that exchange the last two, and the first two,
    correspondences. *)
Definition swap23 : list nat := [0; 1; 3; 2].
Definition swap01 : list nat := [1; 0; 2; 3].

Definition A_ok : Matrix Z 8 13 :=
  Eval vm_compute in
    match fill_A p_ok x_ok X_ok with
    | Some A => A
    | None => mzero 8 13
    end.

Definition A_none : Matrix Z 8 13 :=
  Eval vm_compute in
    match fill_A p_none x_ok X_ok with
    | Some A => A
    | None => mzero 8 13
    end.

Definition A_swap23 : Matrix Z 8 13 :=
  Eval vm_compute in
    match fill_A (reorder swap23 p_ok) (reorder swap23 x_ok)
                 (reorder swap23 X_ok) with
    | Some A => A
    | None => mzero 8 13
    end.

Definition A_swap01 : Matrix Z 8 13 :=
  Eval vm_compute in
    match fill_A (reorder swap01 p_ok) (reorder swap01 x_ok)
                 (reorder swap01 X_ok) with
    | Some A => A
    | None => mzero 8 13
    end.

(** A fifth correspondence. *)
Definition extra : Vector3d Z := [< 7; 8; 9 >]%Z.
End Sample.

(** ** More vocabulary: rescaled rays *)

Section MoreStatements.
Context {F : Type} `{Scalar F}.

(** The ray directions [x], each multiplied by its factor in [cs]. *)
Fixpoint scale_rays (cs : list F) (x : list (Vector3d F))
    : list (Vector3d F) :=
  match cs, x with
  | c :: cs', v :: x' => vscale c v :: scale_rays cs' x'
  | _, _ => []
  end.

(** A factor that has an inverse. *)
Definition unit_factor (c : F) : Prop := exists d, fmul d c = f1.

(** The world points moved by [d], and the pose that goes with the move:
    [R * (X + d) + (t - R * d) = R * X + t]. *)
Definition move_world (d : Vector3d F) (X : list (Vector3d F))
    : list (Vector3d F) :=
  map (fun Xi => vadd Xi d) X.

Definition moved_pose (d : Vector3d F) (pose : CameraPose F) : CameraPose F :=
  {| R := R pose;
     t := vsub (t pose) (mvmul (R pose) d);
     alpha := alpha pose |}.

(** The offsets in another unit, [c] times as large, and the pose with
    its scale divided by [c], that is multiplied by the inverse [d]. *)
Definition scale_offsets (c : F) (p : list (Vector3d F)) : list (Vector3d F) :=
  map (vscale c) p.

Definition rescaled_pose (d : F) (pose : CameraPose F) : CameraPose F :=
  {| R := R pose;
     t := t pose;
     alpha := fmul d (alpha pose) |}.
End MoreStatements.

(** ** benchmark.cc: the benchmark of one solver *)

(** What [benchmark] uses of [double]: [operator<] and
    [std::numeric_limits<double>::max()]. *)
Class Double (E : Type) : Type := {
  dlt : E -> E -> bool;
  dmax : E
}.

(** The template parameter [Solver]: [Solver::name()], [Solver::solve],
    which returns an [int] and writes to the vector it is handed, and the
    two functions of [Solver::validator]. *)
Class Solver (Name Instance Pose E : Type) : Type := {
  name : Name;
  solve : Instance -> list Pose -> Z * list Pose;
  is_valid : Instance -> Pose -> E -> bool;
  compute_pose_error : Instance -> Pose -> E
}.

(** What [benchmark] calls outside the solver: the problem generator of
    problem_generator.h and the clock.  [now k] is what the call number [k]
    of [std::chrono::high_resolution_clock::now()] returns, in
    nanoseconds. *)
Class Harness (Options Instance : Type) : Type := {
  generate_problems : Z -> Options -> list Instance;
  now : nat -> Z
}.

(** [BenchmarkResult] is declared in benchmark.h, which is not among the
    sources: the fields are the ones benchmark.cc uses, the counters are
    integers without a bound, and a new result has its counters at 0. *)
Record BenchmarkResult (Name Options : Type) : Type := mkBenchmarkResult {
  instances_ : Z;
  name_ : Name;
  options_ : Options;
  solutions_ : Z;
  valid_solutions_ : Z;
  found_gt_pose_ : Z;
  runtime_ns_ : Z
}.
Arguments mkBenchmarkResult {Name Options} _ _ _ _ _ _ _.
Arguments instances_ {Name Options} _.
Arguments name_ {Name Options} _.
Arguments options_ {Name Options} _.
Arguments solutions_ {Name Options} _.
Arguments valid_solutions_ {Name Options} _.
Arguments found_gt_pose_ {Name Options} _.
Arguments runtime_ns_ {Name Options} _.

(** [std::sort] on a vector of [long]. *)
Fixpoint sort_insert (a : Z) (l : list Z) : list Z :=
  match l with
  | [] => [a]
  | b :: l' => if (a <=? b)%Z then a :: l else b :: sort_insert a l'
  end.

Fixpoint std_sort (l : list Z) : list Z :=
  match l with
  | [] => []
  | a :: l' => sort_insert a (std_sort l')
  end.

Section Benchmark.
Context {Name Options Instance Pose E : Type}.
Context `{Double E} `{Solver Name Instance Pose E}
        `{Harness Options Instance}.

(** [std::min(a, b)]: [b] when [b < a], else [a]. *)
Definition std_min (a b : E) : E := if dlt b a then b else a.

(** benchmark.cc, lines 29-34: the loop over the poses of one instance,
    on [result.valid_solutions_] and [pose_error]. *)
Fixpoint pose_pass (instance : Instance) (tol : E) (solutions : list Pose)
    (valid : Z) (pose_error : E) : Z * E :=
  match solutions with
  | [] => (valid, pose_error)
  | pose :: rest =>
      let valid' :=
        if is_valid instance pose tol then (valid + 1)%Z else valid in
      pose_pass instance tol rest valid'
        (std_min pose_error (compute_pose_error instance pose))
  end.

(** benchmark.cc, lines 20-38: the loop that checks solution quality. *)
Fixpoint quality_loop (tol : E) (problem_instances : list Instance)
    (result : BenchmarkResult Name Options) : BenchmarkResult Name Options :=
  match problem_instances with
  | [] => result
  | instance :: rest =>
      let sols := fst (solve instance []) in
      let solutions := snd (solve instance []) in
      let solutions_1 := (solutions_ result + sols)%Z in
      let pass := pose_pass instance tol solutions (valid_solutions_ result)
                    dmax in
      let pose_error := snd pass in
      let found :=
        if dlt pose_error tol then (found_gt_pose_ result + 1)%Z
        else found_gt_pose_ result in
      quality_loop tol rest
        {| instances_ := instances_ result;
           name_ := name_ result;
           options_ := options_ result;
           solutions_ := solutions_1;
           valid_solutions_ := fst pass;
           found_gt_pose_ := found;
           runtime_ns_ := runtime_ns_ result |}
  end.

(** benchmark.cc, lines 45-51: one timed pass over the instances, on the
    vector [solutions] and [total_sols]. *)
Fixpoint solve_all (problem_instances : list Instance)
    (solutions : list Pose) (total_sols : Z) : list Pose * Z :=
  match problem_instances with
  | [] => (solutions, total_sols)
  | instance :: rest =>
      let cleared : list Pose := [] in
      let sols := fst (solve instance cleared) in
      let solutions' := snd (solve instance cleared) in
      solve_all rest solutions' (total_sols + sols)%Z
  end.

(** benchmark.cc, lines 42-55: the loop [for (int iter = 0; iter < 10;
    ++iter)], with [k] iterations left; the clock is read twice per
    iteration. *)
Fixpoint timing_loop (problem_instances : list Instance) (k iter : nat)
    (solutions : list Pose) (runtimes : list Z) : list Z :=
  match k with
  | O => runtimes
  | S k' =>
      let start_time := now (2 * iter) in
      let pass := solve_all problem_instances solutions 0%Z in
      let end_time := now (2 * iter + 1) in
      timing_loop problem_instances k' (S iter) (fst pass)
        (runtimes ++ [(end_time - start_time)%Z])
  end.

(** benchmark.cc, lines 9-61.  [runtimes[runtimes.size() / 2]] is an
    unchecked read. *)
Definition benchmark (n_problems : Z) (options : Options) (tol : E)
    : option (BenchmarkResult Name Options) :=
  let problem_instances := generate_problems n_problems options in
  let result :=
    {| instances_ := n_problems;
       name_ := name;
       options_ := options;
       solutions_ := 0%Z;
       valid_solutions_ := 0%Z;
       found_gt_pose_ := 0%Z;
       runtime_ns_ := 0%Z |} in
  let result := quality_loop tol problem_instances result in
  let runtimes := timing_loop problem_instances 10 0 [] [] in
  let runtimes := std_sort runtimes in
  runtime <- nth_error runtimes (length runtimes / 2) ;;
  Some {| instances_ := instances_ result;
          name_ := name_ result;
          options_ := options_ result;
          solutions_ := solutions_ result;
          valid_solutions_ := valid_solutions_ result;
          found_gt_pose_ := found_gt_pose_ result;
          runtime_ns_ := runtime |}.

(** *** Vocabulary of the statements about [benchmark] *)

(** What the solver returns and leaves in a fresh vector. *)
Definition count_of (instance : Instance) : Z := fst (solve instance []).
Definition poses_of (instance : Instance) : list Pose :=
  snd (solve instance []).

(** [pose_error] after the loop over the poses, from its start value. *)
Definition least_error (instance : Instance) (solutions : list Pose)
    (start : E) : E :=
  fold_left (fun e pose => std_min e (compute_pose_error instance pose))
            solutions start.

(** The instances on which the quality loop counts a found pose. *)
Definition counted (tol : E) (instance : Instance) : bool :=
  dlt (least_error instance (poses_of instance) dmax) tol.

(** Some pose of the instance has an error below [tol]. *)
Definition within (tol : E) (instance : Instance) : bool :=
  existsb (fun pose => dlt (compute_pose_error instance pose) tol)
          (poses_of instance).

Definition valid_poses (tol : E) (instance : Instance) : list Pose :=
  filter (fun pose => is_valid instance pose tol) (poses_of instance).

Definition zsum (l : list Z) : Z := fold_right Z.add 0%Z l.

(** The ten durations measured: end minus start of each iteration. *)
Definition durations : list Z :=
  map (fun iter => (now (2 * iter + 1) - now (2 * iter))%Z) (seq 0 10).

(** The order laws of [<] that a comparison with not-a-number breaks. *)
Definition dlt_ordered : Prop :=
  (forall a b c, dlt b a = true -> dlt a c = true -> dlt b c = true) /\
  (forall a b c, dlt b a = false -> dlt b c = true -> dlt a c = true).
End Benchmark.

(** ** Samples for the benchmark and for a root finder out of range *)

Module MoreSamples.
Import Sample.

(** A root finder that returns a negative count, and one that returns 9. *)
Definition negative_count : External Z :=
  {| inverse := adj_inverse;
     rotation_to_3q3 := two_coeffs;
     re3q3 := fun _ => ((-3)%Z, mzero 3 8);
     cayley_param := two_rotations |}.

Definition nine_count : External Z :=
  {| inverse := adj_inverse;
     rotation_to_3q3 := two_coeffs;
     re3q3 := fun _ => (9%Z, mzero 3 8);
     cayley_param := two_rotations |}.

(** The sample with the first and third rays reversed. *)
Definition flips : list Z := [-1; 1; -1; 1]%Z.

(** The sample with the world points moved by [(1, 2, 3)], and with the
    offsets reversed. *)
Definition A_moved : Matrix Z 8 13 :=
  Eval vm_compute in
    match fill_A p_ok x_ok (move_world [< 1; 2; 3 >]%Z X_ok) with
    | Some A => A
    | None => mzero 8 13
    end.

Definition A_reversed : Matrix Z 8 13 :=
  Eval vm_compute in
    match fill_A (scale_offsets (-1)%Z p_ok) x_ok X_ok with
    | Some A => A
    | None => mzero 8 13
    end.

Definition A_flipped : Matrix Z 8 13 :=
  Eval vm_compute in
    match fill_A p_ok (scale_rays flips x_ok) X_ok with
    | Some A => A
    | None => mzero 8 13
    end.

(** A ray in the plane [z = 0], and offsets along the rays. *)
Definition x_flat : list (Vector3d Z) :=
  [ [< -1; 1; 0 >]; [< 1; 0; 1 >]; [< 2; 2; 2 >]; [< -1; 0; 3 >] ]%Z.
Definition p_along : list (Vector3d Z) :=
  [ [< -2; 2; 2 >]; [< 0; 0; 0 >]; [< -2; -3; -2 >]; [< 2; 0; -4 >] ]%Z.

Definition A_flat : Matrix Z 8 13 :=
  Eval vm_compute in
    match fill_A p_ok x_flat X_ok with
    | Some A => A
    | None => mzero 8 13
    end.

Definition A_along : Matrix Z 8 13 :=
  Eval vm_compute in
    match fill_A p_along x_ok X_ok with
    | Some A => A
    | None => mzero 8 13
    end.

(** Errors as integers, for the benchmark. *)
#[export] Instance Z_double : Double Z :=
  {| dlt := Z.ltb; dmax := (2 ^ 1024)%Z |}.

Definition problem : Type :=
  (list (Vector3d Z) * list (Vector3d Z) * list (Vector3d Z))%type.

Definition pose_eqb (a b : CameraPose Z) : bool :=
  forallb (fun rows => forallb (fun ab => Z.eqb (fst ab) (snd ab))
                         (combine (to_list (fst rows)) (to_list (snd rows))))
          (combine (to_list (R a)) (to_list (R b)))
  && forallb (fun ab => Z.eqb (fst ab) (snd ab))
       (combine (to_list (t a)) (to_list (t b)))
  && Z.eqb (alpha a) (alpha b).

(** A solver for the benchmark: gp4ps on the three sequences of the
    instance; a pose is valid when it is the identity pose, and its error
    is the distance of its scale to 1. *)
#[export] Instance gp4ps_solver : Solver unit problem (CameraPose Z) Z :=
  {| name := tt;
     solve := fun instance output =>
       match gp4ps (fst (fst instance)) (snd (fst instance)) (snd instance)
                   output with
       | Some r => r
       | None => (0%Z, output)
       end;
     is_valid := fun _ pose _ => pose_eqb pose identity_pose;
     compute_pose_error := fun _ pose => Z.abs (alpha pose - 1) |}.

(** Two problems, whatever the number asked for, and a clock whose call
    number [k] returns [k * k]. *)
#[export] Instance sample_harness : Harness unit problem :=
  {| generate_problems := fun _ _ =>
       [ (p_ok, x_ok, X_ok); (p_none, x_ok, X_ok) ];
     now := fun k => Z.of_nat (k * k) |}.
End MoreSamples.

(** * Properties *)

(** Splits a variable of tuple type into its components. *)
Ltac explode v :=
  let T := type of v in
  let T' := eval cbv in T in
  lazymatch T' with
  | (_ * _)%type =>
      let a := fresh "a" in
      let b := fresh "b" in
      destruct v as [a b]; explode a; explode b
  | unit => destruct v
  | _ => idtac
  end.

(** Case analysis on the next pending [obind]. *)
Ltac obind_case :=
  match goal with
  | |- context [obind ?o _] =>
      let E := fresh "E" in destruct o eqn:E; cbn [obind]
  | H : context [obind ?o _] |- _ =>
      let E := fresh "E" in destruct o eqn:E; cbn [obind] in H
  end.

(** ** Tuples *)

Section TupleFacts.
Context {T : Type}.

Lemma tnth_Some (n : nat) (v : tup T n) (i : nat) :
  i < n -> exists a, tnth v i = Some a.
Proof.
  revert i; induction n as [|n IH]; intros i Hi; [lia|].
  destruct v as [a v]; destruct i as [|i]; cbn.
  - now exists a.
  - apply IH; lia.
Qed.

Lemma tapp_inj (n k : nat) (u u' : tup T n) (v v' : tup T k) :
  tapp u v = tapp u' v' -> u = u' /\ v = v'.
Proof.
  induction n as [|n IH]; cbn.
  - destruct u, u'. auto.
  - destruct u as [a u], u' as [a' u']. cbn. intros E.
    injection E as -> E. destruct (IH _ _ E) as [-> ->]. auto.
Qed.
End TupleFacts.

(** ** Linear algebra of the kernels, under the ring laws *)

Section Algebra.
Context {F : Type} `{Scalar F}.
Hypothesis Fring : ring_theory f0 f1 fadd fmul fsub fopp (@eq F).
Add Ring Fr : Fring.
Local Open Scope F_scope.

Lemma dot_vzero_l (n : nat) (v : tup F n) : dot (vzero n) v = f0.
Proof.
  induction n as [|n IH]; cbn; [reflexivity|].
  rewrite IH. ring.
Qed.

Lemma dot_vadd_l (n : nat) (u v w : tup F n) :
  dot (vadd u v) w = dot u w + dot v w.
Proof.
  induction n as [|n IH]; cbn.
  - ring.
  - unfold vadd in IH. rewrite IH. ring.
Qed.

Lemma dot_vsub_l (n : nat) (u v w : tup F n) :
  dot (vsub u v) w = dot u w - dot v w.
Proof.
  induction n as [|n IH]; cbn.
  - ring.
  - unfold vsub in IH. rewrite IH. ring.
Qed.

Lemma dot_vscale_l (n : nat) (a : F) (u w : tup F n) :
  dot (vscale a u) w = a * dot u w.
Proof.
  induction n as [|n IH]; cbn.
  - ring.
  - unfold vscale in IH. rewrite IH. ring.
Qed.

Lemma dot_vopp_l (n : nat) (u w : tup F n) : dot (vopp u) w = - dot u w.
Proof.
  induction n as [|n IH]; cbn.
  - ring.
  - unfold vopp in IH. rewrite IH. ring.
Qed.

Lemma dot_vopp_r (n : nat) (u w : tup F n) : dot u (vopp w) = - dot u w.
Proof.
  induction n as [|n IH]; cbn.
  - ring.
  - unfold vopp in IH. rewrite IH. ring.
Qed.

Lemma dot_vmmul (k c : nat) (u : tup F k) (N : Matrix F k c) (v : tup F c) :
  dot (vmmul u N) v = dot u (mvmul N v).
Proof.
  induction k as [|k IH]; cbn.
  - apply dot_vzero_l.
  - rewrite dot_vadd_l, dot_vscale_l. unfold mvmul in IH. now rewrite IH.
Qed.

(** [(M * N) * v = M * (N * v)]. *)
Lemma mvmul_mmul (r k c : nat) (M : Matrix F r k) (N : Matrix F k c)
    (v : tup F c) :
  mvmul (mmul M N) v = mvmul M (mvmul N v).
Proof.
  induction r as [|r IH]; cbn; [reflexivity|].
  unfold mvmul, mmul in IH. rewrite IH. now rewrite dot_vmmul.
Qed.

Lemma mvmul_mopp (r c : nat) (M : Matrix F r c) (v : tup F c) :
  mvmul (mopp M) v = vopp (mvmul M v).
Proof.
  induction r as [|r IH]; cbn; [reflexivity|].
  unfold mvmul, mopp, vopp in IH. rewrite IH. now rewrite dot_vopp_l.
Qed.

Lemma mvmul_vopp (r c : nat) (M : Matrix F r c) (v : tup F c) :
  mvmul M (vopp v) = vopp (mvmul M v).
Proof.
  induction r as [|r IH]; cbn; [reflexivity|].
  unfold mvmul, vopp in IH. rewrite IH. now rewrite dot_vopp_r.
Qed.

Lemma mvmul_msub (r c : nat) (M N : Matrix F r c) (v : tup F c) :
  mvmul (msub M N) v = vsub (mvmul M v) (mvmul N v).
Proof.
  induction r as [|r IH]; cbn; [reflexivity|].
  unfold mvmul, msub, vsub in IH. rewrite IH. now rewrite dot_vsub_l.
Qed.

Lemma mvmul_cons_zero (r c : nat) (M : Matrix F r c) (a : F) (v : tup F c) :
  mvmul (r := r) (c := S c)
    (tmap (U := tup F (S c)) (fun row : tup F c => (f0, row)) M) (a, v)
  = mvmul M v.
Proof.
  induction r as [|r IH]; cbn; [reflexivity|].
  unfold mvmul in IH. rewrite IH. f_equal. ring.
Qed.

Lemma mvmul_mone (n : nat) (v : tup F n) : mvmul (mone n) v = v.
Proof.
  induction n as [|n IH].
  - now destruct v.
  - destruct v as [a v].
    pose proof (mvmul_cons_zero n n (mone n) a v) as E.
    specialize (IH v).
    unfold mvmul in E, IH |- *. cbn [mone tmap fst snd].
    f_equal.
    + cbn [dot fst snd]. rewrite dot_vzero_l. ring.
    + exact (eq_trans E IH).
Qed.

Lemma vadd_vopp_l (n : nat) (w : tup F n) : vadd (vopp w) w = vzero n.
Proof.
  induction n as [|n IH]; cbn; [reflexivity|].
  unfold vadd, vopp, vzero in IH. rewrite IH. f_equal. ring.
Qed.

Lemma vadd_vopp_vsub (n : nat) (y z : tup F n) :
  vadd (vopp y) z = vsub z y.
Proof.
  induction n as [|n IH]; cbn; [reflexivity|].
  unfold vadd, vopp, vsub in IH. rewrite IH. f_equal. ring.
Qed.

Lemma vadd_zero_inv (n : nat) (a b : tup F n) :
  vadd a b = vzero n -> a = vopp b.
Proof.
  induction n as [|n IH]; cbn.
  - now destruct a.
  - destruct a as [a0 a], b as [b0 b]. cbn. intros E.
    injection E as E0 E. unfold vadd, vopp, vzero in IH.
    rewrite (IH _ _ E). f_equal.
    replace a0 with (a0 + b0 - b0) by ring. rewrite E0. ring.
Qed.

End Algebra.

(** ** Data flow of the solver: no law of arithmetic is used *)

Section DataFlow.
Context {F : Type} `{Scalar F} `{External F}.

(** The start value of [A] does not reach the result of the fill loop. *)
Lemma fill_loop_init (p x X : list (Vector3d F)) (A A' : Matrix F 8 13) :
  fill_loop p x X 4 0 A = fill_loop p x X 4 0 A'.
Proof.
  explode A; explode A'. cbn.
  repeat (obind_case; [|reflexivity]). reflexivity.
Qed.

Lemma fill_A_corr (p x X : list (Vector3d F)) :
  fill_A p x X =
  (q0 <- corr p x X 0 ;; q1 <- corr p x X 1 ;;
   q2 <- corr p x X 2 ;; q3 <- corr p x X 3 ;;
   Some (system_of q0 q1 q2 q3)).
Proof.
  unfold fill_A, corr. cbn.
  repeat (obind_case; [|reflexivity]). reflexivity.
Qed.

Lemma corr_Some (p x X : list (Vector3d F)) (i : nat) :
  i < length p -> i < length x -> i < length X ->
  exists pi xi Xi,
    nth_error p i = Some pi /\ nth_error x i = Some xi /\
    nth_error X i = Some Xi /\ corr p x X i = Some (pi, xi, Xi).
Proof.
  intros Hp Hx HX. unfold corr.
  destruct (nth_error p i) as [pi|] eqn:Ep;
    [|apply nth_error_None in Ep; lia].
  destruct (nth_error x i) as [xi|] eqn:Ex;
    [|apply nth_error_None in Ex; lia].
  destruct (nth_error X i) as [Xi|] eqn:EX;
    [|apply nth_error_None in EX; lia].
  now exists pi, xi, Xi.
Qed.

Lemma corr_None (p x X : list (Vector3d F)) (i : nat) :
  length p <= i \/ length x <= i \/ length X <= i -> corr p x X i = None.
Proof.
  intros Hl. unfold corr.
  destruct (nth_error x i) eqn:Ex; [|reflexivity].
  destruct (nth_error p i) eqn:Ep; [|reflexivity].
  destruct (nth_error X i) eqn:EX; [|reflexivity].
  assert (nth_error x i <> None) as Nx by congruence.
  assert (nth_error p i <> None) as Np by congruence.
  assert (nth_error X i <> None) as NX by congruence.
  apply nth_error_Some in Nx, Np, NX. lia.
Qed.

Lemma corr_firstn (p x X : list (Vector3d F)) (n i : nat) :
  i < n ->
  corr (firstn n p) (firstn n x) (firstn n X) i = corr p x X i.
Proof.
  intros Hi. unfold corr.
  now rewrite !nth_error_firstn, (proj2 (Nat.ltb_lt i n) Hi).
Qed.

(** The fill loop succeeds exactly on sequences of at least 4 elements. *)
Lemma fill_A_Some (p x X : list (Vector3d F)) :
  4 <= length p -> 4 <= length x -> 4 <= length X ->
  exists q0 q1 q2 q3,
    corr p x X 0 = Some q0 /\ corr p x X 1 = Some q1 /\
    corr p x X 2 = Some q2 /\ corr p x X 3 = Some q3 /\
    fill_A p x X = Some (system_of q0 q1 q2 q3).
Proof.
  intros Hp Hx HX.
  destruct (corr_Some p x X 0) as (p0 & x0 & X0 & _ & _ & _ & E0); try lia.
  destruct (corr_Some p x X 1) as (p1 & x1 & X1 & _ & _ & _ & E1); try lia.
  destruct (corr_Some p x X 2) as (p2 & x2 & X2 & _ & _ & _ & E2); try lia.
  destruct (corr_Some p x X 3) as (p3 & x3 & X3 & _ & _ & _ & E3); try lia.
  exists (p0, x0, X0), (p1, x1, X1), (p2, x2, X2), (p3, x3, X3).
  rewrite fill_A_corr, E0, E1, E2, E3. cbn. auto.
Qed.

Lemma fill_A_None (p x X : list (Vector3d F)) :
  length p < 4 \/ length x < 4 \/ length X < 4 -> fill_A p x X = None.
Proof.
  intros Hl. rewrite fill_A_corr.
  rewrite (corr_None p x X 3) by lia.
  repeat (obind_case; [|reflexivity]). reflexivity.
Qed.

Lemma fill_A_inv (p x X : list (Vector3d F)) (A : Matrix F 8 13) :
  fill_A p x X = Some A ->
  exists q0 q1 q2 q3,
    corr p x X 0 = Some q0 /\ corr p x X 1 = Some q1 /\
    corr p x X 2 = Some q2 /\ corr p x X 3 = Some q3 /\
    A = system_of q0 q1 q2 q3.
Proof.
  rewrite fill_A_corr. intros E.
  destruct (corr p x X 0) as [q0|]; [|discriminate].
  destruct (corr p x X 1) as [q1|]; [|discriminate].
  destruct (corr p x X 2) as [q2|]; [|discriminate].
  destruct (corr p x X 3) as [q3|]; [|discriminate].
  cbn in E. injection E as <-. now exists q0, q1, q2, q3.
Qed.

Lemma fill_A_firstn (p x X : list (Vector3d F)) :
  fill_A (firstn 4 p) (firstn 4 x) (firstn 4 X) = fill_A p x X.
Proof.
  rewrite !fill_A_corr. now rewrite !corr_firstn by lia.
Qed.

(** Columns of the solution matrix. *)
Lemma col_Some (r c : nat) (M : Matrix F r c) (i : nat) :
  i < c -> exists s, col M i = Some s.
Proof.
  intros Hi. unfold col.
  induction r as [|r IH]; cbn.
  - now exists tt.
  - destruct M as [row M]. cbn.
    destruct (tnth_Some c row i Hi) as [a ->].
    destruct (IH M) as [s ->]. cbn. now eexists.
Qed.

Lemma roots_from_Some (solutions : Matrix F 3 8) (k i : nat) :
  i + k <= 8 -> exists ss, roots_from solutions k i = Some ss.
Proof.
  revert i; induction k as [|k IH]; intros i Hi; cbn [roots_from].
  - now exists [].
  - destruct (col_Some 3 8 solutions i) as [s ->]; [lia|].
    destruct (IH (S i)) as [ss ->]; [lia|]. cbn [obind]. now eexists.
Qed.

Lemma roots_from_length (solutions : Matrix F 3 8) (k i : nat)
    (ss : list (Vector3d F)) :
  roots_from solutions k i = Some ss -> length ss = k.
Proof.
  revert i ss; induction k as [|k IH]; intros i ss; cbn [roots_from].
  - now intros [= <-].
  - destruct (col solutions i) as [s|]; [|discriminate]. cbn [obind].
    destruct (roots_from solutions k (S i)) as [ss'|] eqn:E; [|discriminate].
    cbn [obind]. intros [= <-]. cbn. f_equal. eauto.
Qed.

Lemma roots_from_nth (solutions : Matrix F 3 8) (k i : nat)
    (ss : list (Vector3d F)) :
  roots_from solutions k i = Some ss ->
  forall j, j < k -> exists s,
    col solutions (i + j) = Some s /\ nth_error ss j = Some s.
Proof.
  revert i ss; induction k as [|k IH]; intros i ss; cbn [roots_from]; [lia|].
  destruct (col solutions i) as [s|] eqn:Ec; [|discriminate]. cbn [obind].
  destruct (roots_from solutions k (S i)) as [ss'|] eqn:E; [|discriminate].
  cbn [obind]. intros [= <-] [|j] Hj.
  - exists s. now rewrite Nat.add_0_r.
  - destruct (IH _ _ E j) as (s' & Hs & Hn); [lia|].
    exists s'. split; [|exact Hn].
    now replace (i + S j) with (S i + j) by lia.
Qed.

Lemma roots_from_In (solutions : Matrix F 3 8) (k i : nat)
    (ss : list (Vector3d F)) (s : Vector3d F) :
  roots_from solutions k i = Some ss ->
  (In s ss <-> exists j, j < k /\ col solutions (i + j) = Some s).
Proof.
  intros E. split.
  - intros Hin. apply In_nth_error in Hin as [j Hj].
    assert (j < k) as Hlt.
    { rewrite <- (roots_from_length _ _ _ _ E).
      apply nth_error_Some. congruence. }
    exists j. split; [exact Hlt|].
    destruct (roots_from_nth _ _ _ _ E _ Hlt) as (s' & Hc & Hn). congruence.
  - intros (j & Hlt & Hc).
    destruct (roots_from_nth _ _ _ _ E _ Hlt) as (s' & Hc' & Hn).
    apply nth_error_In with j. congruence.
Qed.

(** The pose loop appends one pose per column read. *)
Lemma pose_loop_roots (A : Matrix F 8 13) (B : Matrix4d F)
    (solutions : Matrix F 3 8) (k i : nat) (output : list (CameraPose F)) :
  pose_loop A B solutions k i output =
  (ss <- roots_from solutions k i ;;
   Some (output ++ map (make_pose A B) ss)).
Proof.
  revert i output; induction k as [|k IH]; intros i output;
    cbn [roots_from pose_loop obind].
  - now rewrite app_nil_r.
  - destruct (col solutions i) as [s|]; cbn [obind]; [|reflexivity].
    rewrite IH.
    destruct (roots_from solutions k (S i)) as [ss|]; cbn [obind map];
      [|reflexivity].
    now rewrite <- app_assoc.
Qed.

Lemma gp4ps_spec (p x X : list (Vector3d F)) (output : list (CameraPose F)) :
  gp4ps p x X output =
  (A <- fill_A p x X ;;
   ss <- roots_from (solutions_of A) (Z.to_nat (n_sols_of A)) 0 ;;
   Some (n_sols_of A, output ++ map (pose_of_root A) ss)).
Proof.
  unfold gp4ps. destruct (fill_A p x X) as [A|]; cbn [obind]; [|reflexivity].
  rewrite pose_loop_roots. unfold n_sols_of, solutions_of, stage_AR.
  destruct (roots_from _ _ _); reflexivity.
Qed.

Lemma gp4ps_Some (p x X : list (Vector3d F)) (output : list (CameraPose F))
    (A : Matrix F 8 13) :
  fill_A p x X = Some A -> (n_sols_of A <= 8)%Z ->
  exists output', gp4ps p x X output = Some (n_sols_of A, output').
Proof.
  intros EA Hn. rewrite gp4ps_spec, EA. cbn [obind].
  destruct (roots_from_Some (solutions_of A) (Z.to_nat (n_sols_of A)) 0)
    as [ss ->]; [lia|].
  cbn [obind]. eauto.
Qed.

Lemma perm4_fix3 (sigma : list nat) :
  Permutation sigma [0; 1; 2; 3] -> nth_error sigma 3 = Some 3 ->
  In sigma [ [0; 1; 2; 3]; [0; 2; 1; 3]; [1; 0; 2; 3];
             [1; 2; 0; 3]; [2; 0; 1; 3]; [2; 1; 0; 3] ].
Proof.
  intros HP H3.
  pose proof (Permutation_length HP) as HL.
  destruct sigma as [|a [|b [|c [|d [|]]]]]; try discriminate.
  cbn in H3. injection H3 as ->.
  assert (NoDup [a; b; c; 3]) as ND.
  { apply (Permutation_NoDup (Permutation_sym HP)).
    repeat (constructor; [cbn; lia|]). constructor. }
  assert (In a [0; 1; 2; 3]) as Ha by (apply (Permutation_in _ HP); cbn; auto).
  assert (In b [0; 1; 2; 3]) as Hb by (apply (Permutation_in _ HP); cbn; auto).
  assert (In c [0; 1; 2; 3]) as Hc by (apply (Permutation_in _ HP); cbn; auto).
  rewrite !NoDup_cons_iff in ND. cbn in ND, Ha, Hb, Hc.
  destruct Ha as [ <- | [ <- | [ <- | [ <- | []]]]];
    destruct Hb as [ <- | [ <- | [ <- | [ <- | []]]]];
    destruct Hc as [ <- | [ <- | [ <- | [ <- | []]]]];
    solve [cbn; auto 10 | exfalso; lia].
Qed.

Lemma appended_app (output new : list (CameraPose F)) :
  appended output (output ++ new) = new.
Proof.
  unfold appended. rewrite skipn_app, skipn_all, Nat.sub_diag. reflexivity.
Qed.
End DataFlow.

Import Sample.

(** ** The count returned and the frame of the output vector *)

Section CountAndFrame.
Context {F : Type} `{Scalar F} `{External F}.

(** C2.  When re3q3 keeps to its interface (a count between 0 and 8), the
    solver returns: the integer returned is the count of re3q3, it is the
    number of poses the call appended, and it lies between 0 and 8. *)
Theorem gp4ps_count (p x X : list (Vector3d F))
    (output : list (CameraPose F)) (A : Matrix F 8 13) :
  fill_A p x X = Some A ->
  re3q3_in_range A ->
  exists n output',
    gp4ps p x X output = Some (n, output') /\
    output' = output ++ appended output output' /\
    Z.of_nat (length (appended output output')) = n /\
    n = n_sols_of A /\
    (0 <= n <= 8)%Z.
Proof.
  intros EA Hn. unfold re3q3_in_range in Hn.
  rewrite gp4ps_spec, EA. cbn [obind].
  destruct (roots_from_Some (solutions_of A) (Z.to_nat (n_sols_of A)) 0)
    as [ss Ess]; [lia|].
  rewrite Ess. cbn [obind].
  exists (n_sols_of A), (output ++ map (pose_of_root A) ss).
  rewrite appended_app, length_map, (roots_from_length _ _ _ _ Ess).
  repeat split; try lia.
Qed.

(** C6.  The call leaves what was in the output vector in place and puts
    the new poses after it; what it appends and what it returns do not
    depend on what the vector held; with no root it returns 0 and the
    vector is as before. *)
Theorem gp4ps_appends (p x X : list (Vector3d F))
    (output : list (CameraPose F)) :
  gp4ps p x X output =
    match gp4ps p x X [] with
    | Some (n, new) => Some (n, output ++ new)
    | None => None
    end /\
  (forall n output',
      gp4ps p x X output = Some (n, output') ->
      firstn (length output) output' = output /\
      forall k e, nth_error output k = Some e ->
                  nth_error output' k = Some e) /\
  (forall A, fill_A p x X = Some A -> n_sols_of A = 0%Z ->
             gp4ps p x X output = Some (0%Z, output)).
Proof.
  split; [|split].
  - rewrite !gp4ps_spec.
    destruct (fill_A p x X) as [A|]; cbn [obind]; [|reflexivity].
    destruct (roots_from _ _ _) as [ss|]; cbn [obind]; reflexivity.
  - intros n output'. rewrite gp4ps_spec.
    destruct (fill_A p x X) as [A|]; cbn [obind]; [|discriminate].
    destruct (roots_from _ _ _) as [ss|]; cbn [obind]; [|discriminate].
    intros [= <- <-]. split.
    + rewrite firstn_app, firstn_all, Nat.sub_diag. cbn.
      apply app_nil_r.
    + intros k e Hk. rewrite nth_error_app1; [exact Hk|].
      apply nth_error_Some. congruence.
  - intros A EA Hn. rewrite gp4ps_spec, EA. cbn [obind]. rewrite Hn. cbn.
    now rewrite app_nil_r.
Qed.

(** C10.  Sequences of more than 4 elements are processed: the fill loop
    reads the elements of index 0 to 3 only, and the result is that of the
    call on the first 4 elements of each sequence. *)
Theorem gp4ps_extra_ignored (p x X : list (Vector3d F))
    (output : list (CameraPose F)) :
  4 < length p -> 4 < length x -> 4 < length X ->
  gp4ps p x X output
    = gp4ps (firstn 4 p) (firstn 4 x) (firstn 4 X) output /\
  exists A,
    fill_A p x X = Some A /\
    ((n_sols_of A <= 8)%Z ->
     exists n output', gp4ps p x X output = Some (n, output')).
Proof.
  intros Hp Hx HX. split.
  - now rewrite !gp4ps_spec, fill_A_firstn.
  - destruct (fill_A_Some p x X) as (q0 & q1 & q2 & q3 & _ & _ & _ & _ & EA);
      try lia.
    eexists. split; [exact EA|]. intros Hn.
    rewrite gp4ps_spec, EA. cbn [obind].
    destruct (roots_from_Some (solutions_of (system_of q0 q1 q2 q3))
                (Z.to_nat (n_sols_of (system_of q0 q1 q2 q3))) 0)
      as [ss ->]; [lia|].
    cbn [obind]. eauto.
Qed.

(** C8, as the code has it.  There is no check of the shape of the input:
    with at least 4 elements in each sequence the matrix is filled from
    the elements of index 0 to 3, whatever follows them, and the solver
    goes on; with fewer than 4 in one of them the fill loop reads past
    the end of that sequence, which leaves the call without a defined
    result. *)
Theorem gp4ps_shape_unchecked (p x X : list (Vector3d F))
    (output : list (CameraPose F)) :
  (4 <= length p -> 4 <= length x -> 4 <= length X ->
   exists A,
     fill_A p x X = Some A /\
     fill_A (firstn 4 p) (firstn 4 x) (firstn 4 X) = Some A /\
     ((n_sols_of A <= 8)%Z ->
      exists n output', gp4ps p x X output = Some (n, output'))) /\
  (length p < 4 \/ length x < 4 \/ length X < 4 ->
   fill_A p x X = None /\ gp4ps p x X output = None).
Proof.
  split.
  - intros Hp Hx HX.
    destruct (fill_A_Some p x X) as (q0 & q1 & q2 & q3 & _ & _ & _ & _ & EA);
      try lia.
    eexists. split; [exact EA|]. split; [now rewrite fill_A_firstn|].
    intros Hn. rewrite gp4ps_spec, EA. cbn [obind].
    destruct (roots_from_Some (solutions_of (system_of q0 q1 q2 q3))
                (Z.to_nat (n_sols_of (system_of q0 q1 q2 q3))) 0)
      as [ss ->]; [lia|].
    cbn [obind]. eauto.
  - intros Hl. pose proof (fill_A_None p x X Hl) as E.
    split; [exact E|]. now rewrite gp4ps_spec, E.
Qed.
End CountAndFrame.

(** C2 on the sample: two roots, two poses. *)
Lemma gp4ps_count_sample :
  exists n output',
    gp4ps p_ok x_ok X_ok [identity_pose] = Some (n, output') /\
    output' = [identity_pose] ++ appended [identity_pose] output' /\
    Z.of_nat (length (appended [identity_pose] output')) = n /\
    n = 2%Z /\
    (0 <= n <= 8)%Z.
Proof.
  refine (gp4ps_count p_ok x_ok X_ok [identity_pose] A_ok _ _).
  - reflexivity.
  - vm_compute. split; discriminate.
Defined.

(** C6 on the sample: a vector holding one pose, a system with no root. *)
Lemma gp4ps_appends_sample :
  gp4ps p_none x_ok X_ok [identity_pose] = Some (0%Z, [identity_pose]).
Proof.
  refine (proj2 (proj2 (gp4ps_appends p_none x_ok X_ok [identity_pose]))
            A_none _ _).
  - reflexivity.
  - reflexivity.
Defined.

(** C10 on the sample: correspondences after the fourth change nothing. *)
Lemma gp4ps_extra_ignored_sample :
  gp4ps (p_ok ++ [extra; extra]) (x_ok ++ [extra]) (X_ok ++ [extra]) []
  = gp4ps p_ok x_ok X_ok [].
Proof.
  refine (proj1 (gp4ps_extra_ignored (p_ok ++ [extra; extra]) (x_ok ++ [extra])
                   (X_ok ++ [extra]) [] _ _ _)); cbn; lia.
Defined.

(** C8: a call with five correspondences is not rejected. *)
Lemma rejects_wrong_shape_fails : ~ rejects_wrong_shape (F := Z).
Proof.
  intros Hc.
  specialize (Hc (p_ok ++ [extra]) (x_ok ++ [extra]) (X_ok ++ [extra]) []).
  assert (gp4ps (p_ok ++ [extra]) (x_ok ++ [extra]) (X_ok ++ [extra]) []
          = Some (2%Z, [identity_pose; turned_pose])) as E by reflexivity.
  rewrite Hc in E; [discriminate|]. left. cbn. lia.
Qed.

(** C8 on the sample: five correspondences go through, three do not. *)
Lemma gp4ps_shape_unchecked_sample :
  (exists A,
      fill_A (p_ok ++ [extra]) (x_ok ++ [extra]) (X_ok ++ [extra]) = Some A /\
      fill_A p_ok x_ok X_ok = Some A) /\
  gp4ps (firstn 3 p_ok) x_ok X_ok [] = None.
Proof.
  split.
  - destruct (proj1 (gp4ps_shape_unchecked (p_ok ++ [extra]) (x_ok ++ [extra])
                       (X_ok ++ [extra]) []))
      as (A & E1 & E2 & _); [cbn; lia ..|].
    exists A. split; [exact E1|exact E2].
  - apply (proj2 (gp4ps_shape_unchecked (firstn 3 p_ok) x_ok X_ok [])).
    left. cbn. lia.
Defined.

(** ** Row 7 of the coefficient matrix is written and never read *)

Section RowSeven.
Context {F : Type} `{Scalar F} `{External F}.

(** Everything after the fill loop reads rows 0 to 6 only. *)
Lemma rows7_stage (A A' : Matrix F 8 13) :
  ttake 7 (k := 1) A = ttake 7 (k := 1) A' ->
  elim_B A = elim_B A' /\
  stage_AR A = stage_AR A' /\
  forall s, pose_of_root A s = pose_of_root A' s.
Proof.
  destruct A as [r0 [r1 [r2 [r3 [r4 [r5 [r6 [r7 []]]]]]]]].
  destruct A' as [r0' [r1' [r2' [r3' [r4' [r5' [r6' [r7' []]]]]]]]].
  cbn [ttake fst snd]. intros E.
  injection E as -> -> -> -> -> -> ->.
  repeat split.
Qed.

Lemma nth_error_firstn_eq (T : Type) (l l' : list T) (n i : nat) :
  firstn n l = firstn n l' -> i < n -> nth_error l i = nth_error l' i.
Proof.
  intros E Hi.
  pose proof (nth_error_firstn n l i) as E1.
  pose proof (nth_error_firstn n l' i) as E2.
  rewrite (proj2 (Nat.ltb_lt i n) Hi) in E1, E2.
  rewrite <- E1, <- E2. now rewrite E.
Qed.

Lemma corr_same_lt (p p' x x' X : list (Vector3d F)) (i : nat) :
  same_but_31 p p' -> same_but_31 x x' -> i < 3 ->
  corr p x X i = corr p' x' X i.
Proof.
  intros [Ep _] [Ex _] Hi. unfold corr.
  rewrite (nth_error_firstn_eq _ _ _ _ _ Ep Hi).
  now rewrite (nth_error_firstn_eq _ _ _ _ _ Ex Hi).
Qed.

Lemma corr_same_3 (p p' x x' X : list (Vector3d F)) :
  same_but_31 p p' -> same_but_31 x x' ->
  match corr p x X 3, corr p' x' X 3 with
  | Some q, Some q' => even_of q = even_of q'
  | None, None => True
  | _, _ => False
  end.
Proof.
  intros [_ Hp] [_ Hx]. unfold corr.
  destruct (nth_error x 3) as [x3|], (nth_error x' 3) as [y3|];
    try contradiction; cbn [obind]; [|exact I].
  destruct (nth_error p 3) as [p3|], (nth_error p' 3) as [q3|];
    try contradiction; cbn [obind]; [|exact I].
  destruct (nth_error X 3) as [X3|]; cbn [obind]; [|exact I].
  destruct Hp as [Hp0 Hp2], Hx as [Hx0 Hx2].
  unfold even_of, row_even. cbn [fst snd].
  now rewrite Hp0, Hp2, Hx0, Hx2.
Qed.

(** C9.  The second components of [x[3]] and [p[3]] enter row 7 only, so
    two inputs that differ in nothing else give the same result: the same
    count and the same output vector, or no result for either. *)
Theorem gp4ps_ignores_row7 (p p' x x' X : list (Vector3d F))
    (output : list (CameraPose F)) :
  same_but_31 p p' -> same_but_31 x x' ->
  gp4ps p x X output = gp4ps p' x' X output.
Proof.
  intros Hp Hx. rewrite !gp4ps_spec, !fill_A_corr.
  rewrite <- !(corr_same_lt p p' x x' X _ Hp Hx) by lia.
  destruct (corr p x X 0) as [q0|]; cbn [obind]; [|reflexivity].
  destruct (corr p x X 1) as [q1|]; cbn [obind]; [|reflexivity].
  destruct (corr p x X 2) as [q2|]; cbn [obind]; [|reflexivity].
  pose proof (corr_same_3 p p' x x' X Hp Hx) as H3.
  destruct (corr p x X 3) as [q3|], (corr p' x' X 3) as [q3'|];
    try contradiction; cbn [obind]; try reflexivity.
  destruct (rows7_stage (system_of q0 q1 q2 q3) (system_of q0 q1 q2 q3'))
    as (EB & EAR & Epose).
  { unfold system_of. cbn [ttake fst snd]. now rewrite H3. }
  unfold n_sols_of, solutions_of. rewrite EAR.
  destruct (roots_from _ _ _) as [ss|]; cbn [obind]; [|reflexivity].
  now rewrite (map_ext _ _ Epose).
Qed.
End RowSeven.

(** C9 on the sample: [p[3](1)] moved from 0 to 5, [x[3](1)] from 0 to 7. *)
Lemma gp4ps_ignores_row7_sample :
  gp4ps p_ok x_ok X_ok [] = gp4ps p_off x_off X_ok [].
Proof.
  apply gp4ps_ignores_row7; repeat split.
Defined.

(** ** The coefficient matrix, the elimination and the back-substitution *)

(** Splits an equality of tuples into the equalities of their components. *)
Ltac tuple_split :=
  repeat match goal with
         | |- Some _ = Some _ => apply f_equal
         | |- (_, _) = (_, _) => apply (f_equal2 pair)
         end;
  try reflexivity.

Section Pipeline.
Context {F : Type} `{Scalar F} `{External F}.
Hypothesis Fring : ring_theory f0 f1 fadd fmul fsub fopp (@eq F).
Add Ring Fpipeline : Fring.
Local Open Scope F_scope.

Lemma corr_of_nth (p x X : list (Vector3d F)) (i : nat)
    (pi xi Xi : Vector3d F) :
  nth_error p i = Some pi -> nth_error x i = Some xi ->
  nth_error X i = Some Xi -> corr p x X i = Some (pi, xi, Xi).
Proof. intros Ep Ex EX. unfold corr. now rewrite Ex, Ep, EX. Qed.

Lemma row_even_kron (pi xi Xi : Vector3d F) :
  row_even pi xi Xi =
  tapp ([< c2 xi; f0; - c0 xi; - c0 pi * c2 xi + c2 pi * c0 xi >] : tup F 4)
       (kron3 Xi ([< c2 xi; f0; - c0 xi >] : Vector3d F)).
Proof.
  unfold row_even, kron3, vscale. cbn [tapp tmap fst snd].
  tuple_split; ring.
Qed.

Lemma row_odd_kron (pi xi Xi : Vector3d F) :
  row_odd pi xi Xi =
  tapp ([< f0; c2 xi; - c1 xi; - c1 pi * c2 xi + c2 pi * c1 xi >] : tup F 4)
       (kron3 Xi ([< f0; c2 xi; - c1 xi >] : Vector3d F)).
Proof.
  unfold row_odd, kron3, vscale. cbn [tapp tmap fst snd].
  tuple_split; ring.
Qed.

(** C3.  Under the ring laws, for [i] from 0 to 3, row [2 i] of [A] is
    [(x_z, 0, -x_x, -p_x x_z + p_z x_x)] followed by [X[i]] kron
    [[x_z, 0, -x_x]], and row [2 i + 1] is the same construction on
    [(0, x_z, -x_y)]: [(0, x_z, -x_y, -p_y x_z + p_z x_y)] followed by
    [X[i]] kron [[0, x_z, -x_y]]. *)
Theorem fill_A_rows (p x X : list (Vector3d F)) (A : Matrix F 8 13)
    (i : nat) (pi xi Xi : Vector3d F) :
  fill_A p x X = Some A ->
  i < 4 ->
  nth_error p i = Some pi -> nth_error x i = Some xi ->
  nth_error X i = Some Xi ->
  tnth A (2 * i) =
    Some (tapp ([< c2 xi; f0; - c0 xi;
                   - c0 pi * c2 xi + c2 pi * c0 xi >] : tup F 4)
               (kron3 Xi ([< c2 xi; f0; - c0 xi >] : Vector3d F))) /\
  tnth A (2 * i + 1) =
    Some (tapp ([< f0; c2 xi; - c1 xi;
                   - c1 pi * c2 xi + c2 pi * c1 xi >] : tup F 4)
               (kron3 Xi ([< f0; c2 xi; - c1 xi >] : Vector3d F))).
Proof.
  intros EA Hi Ep Ex EX.
  pose proof (corr_of_nth p x X i pi xi Xi Ep Ex EX) as Ec.
  destruct (fill_A_inv p x X A EA)
    as (q0 & q1 & q2 & q3 & E0 & E1 & E2 & E3 & ->).
  rewrite <- row_even_kron, <- row_odd_kron.
  destruct i as [|[|[|[|i]]]]; [| | | |lia].
  - assert (q0 = (pi, xi, Xi)) as -> by congruence. split; reflexivity.
  - assert (q1 = (pi, xi, Xi)) as -> by congruence. split; reflexivity.
  - assert (q2 = (pi, xi, Xi)) as -> by congruence. split; reflexivity.
  - assert (q3 = (pi, xi, Xi)) as -> by congruence. split; reflexivity.
Qed.

Lemma leading_block_entries (A : Matrix F 8 13) (i j : nat) :
  i < 4 -> j < 4 -> ent (leading_block A) i j = ent A i j.
Proof.
  intros Hi Hj.
  destruct A as [r0 [r1 [r2 [r3 A]]]].
  explode r0; explode r1; explode r2; explode r3.
  destruct i as [|[|[|[|i]]]]; [| | | |lia];
    (destruct j as [|[|[|[|j]]]]; [| | | |lia]); reflexivity.
Qed.

(** Entry by entry, [elim_AR] is the Schur complement on rows 4 to 6. *)
Lemma elim_AR_entries (A : Matrix F 8 13) (B : Matrix4d F) (i j : nat) :
  i < 3 -> j < 9 ->
  ent (elim_AR A B) i j =
  ent A (4 + i)%nat (4 + j)%nat
  - fsum 4 (fun k => fsum 4 (fun l =>
      ent A (4 + i)%nat k * ent B k l * ent A l (4 + j)%nat)).
Proof.
  intros Hi Hj. explode A. explode B.
  destruct i as [|[|[|i]]]; [| | |lia];
    (destruct j as [|[|[|[|[|[|[|[|[|j]]]]]]]]]; [| | | | | | | | |lia]);
    cbv - [fadd fsub fmul fopp f0 f1]; ring.
Qed.

(** C1, as the code has it.  [B] is what Eigen's inverse returns on the
    leading 4x4 block of [A]; the matrix handed to [rotation_to_3q3] is the
    3x9 matrix [A[4:7, 4:13] - A[4:7, 0:4] * B * A[0:4, 4:13]], entry by
    entry under the ring laws: the update is done on rows 4, 5 and 6, and
    row 7 takes no part in it. *)
Theorem gp4ps_elimination (p x X : list (Vector3d F))
    (output : list (CameraPose F)) (A : Matrix F 8 13) :
  fill_A p x X = Some A ->
  exists (B : Matrix4d F) (AR : Matrix F 3 9),
    B = inverse (leading_block A) /\
    (forall i j, i < 4 -> j < 4 -> ent (leading_block A) i j = ent A i j) /\
    (forall i j, i < 3 -> j < 9 ->
       ent AR i j =
       ent A (4 + i)%nat (4 + j)%nat
       - fsum 4 (fun k => fsum 4 (fun l =>
           ent A (4 + i)%nat k * ent B k l * ent A l (4 + j)%nat))) /\
    gp4ps p x X output =
      (output' <- pose_loop A B (snd (re3q3 (rotation_to_3q3 AR)))
                    (Z.to_nat (fst (re3q3 (rotation_to_3q3 AR)))) 0 output ;;
       Some (fst (re3q3 (rotation_to_3q3 AR)), output')).
Proof.
  intros EA. exists (elim_B A), (elim_AR A (elim_B A)).
  split; [reflexivity|]. split; [apply leading_block_entries|].
  split; [apply elim_AR_entries|].
  unfold gp4ps. now rewrite EA.
Qed.

(** [ts] holds [t] in its first three components and [alpha] in the
    fourth. *)
Lemma make_pose_ts (A : Matrix F 8 13) (B : Matrix4d F) (s : Vector3d F) :
  tapp (t (make_pose A B s)) ([< alpha (make_pose A B s) >] : tup F 1)
  = back_substitute A B (cayley_param s).
Proof.
  unfold make_pose. cbn [t alpha].
  generalize (back_substitute A B (cayley_param s)) as ts. intros ts.
  explode ts. reflexivity.
Qed.

Lemma back_substitute_spec (A : Matrix F 8 13) (B : Matrix4d F)
    (Rm : Matrix3d F) :
  back_substitute A B Rm
  = vopp (mvmul (mmul B (block 0 4 4 9 (k := 4) (l := 0) A)) (data Rm)).
Proof.
  unfold back_substitute.
  now rewrite (mvmul_mopp Fring), (mvmul_mmul Fring).
Qed.

(** C4.  For each root [i] below the count, the pose at position [i] after
    the old content of the output vector has the rotation [cayley_param]
    gives for column [i] of the solutions, and its [t] and [alpha] are the
    first three and the fourth component of [-B * A[0:4, 4:13] * vec(R)],
    under the ring laws. *)
Theorem gp4ps_back_substitution (p x X : list (Vector3d F))
    (output output' : list (CameraPose F)) (A : Matrix F 8 13) (n : Z)
    (i : nat) :
  fill_A p x X = Some A ->
  gp4ps p x X output = Some (n, output') ->
  i < Z.to_nat n ->
  exists s pose,
    col (solutions_of A) i = Some s /\
    nth_error output' (length output + i)%nat = Some pose /\
    R pose = cayley_param s /\
    tapp (t pose) ([< alpha pose >] : tup F 1)
    = vopp (mvmul (mmul (elim_B A) (block 0 4 4 9 (k := 4) (l := 0) A))
                  (data (R pose))).
Proof.
  intros EA. rewrite gp4ps_spec, EA. cbn [obind].
  destruct (roots_from _ _ _) as [ss|] eqn:Ess; cbn [obind]; [|discriminate].
  intros [= <- <-] Hi.
  destruct (roots_from_nth _ _ _ _ Ess i Hi) as (s & Hc & Hn).
  exists s, (pose_of_root A s). split; [exact Hc|]. split.
  - rewrite nth_error_app2 by lia.
    replace (length output + i - length output)%nat with i by lia.
    now rewrite nth_error_map, Hn.
  - split; [reflexivity|].
    unfold pose_of_root. rewrite make_pose_ts. apply back_substitute_spec.
Qed.

(** *** The seven equations a pose solves *)

Lemma rows7_split (A : Matrix F 8 13) (u : tup F 13) :
  mvmul (ttake 7 (k := 1) A) u =
  tapp (mvmul (ttake 4 (k := 4) A) u)
       (mvmul (ttake 3 (k := 1) (tskip 4 (k := 4) A)) u).
Proof.
  destruct A as [r0 [r1 [r2 [r3 [r4 [r5 [r6 [r7 []]]]]]]]]. reflexivity.
Qed.

Lemma top_rows_split (A : Matrix F 8 13) (ts : tup F 4) (r : tup F 9) :
  mvmul (ttake 4 (k := 4) A) (tapp ts r) =
  vadd (mvmul (leading_block A) ts)
       (mvmul (block 0 4 4 9 (k := 4) (l := 0) A) r).
Proof.
  destruct A as [r0 [r1 [r2 [r3 A]]]].
  explode r0; explode r1; explode r2; explode r3; explode ts; explode r.
  cbv - [fadd fsub fmul fopp f0 f1]. tuple_split; ring.
Qed.

Lemma mid_rows_split (A : Matrix F 8 13) (ts : tup F 4) (r : tup F 9) :
  mvmul (ttake 3 (k := 1) (tskip 4 (k := 4) A)) (tapp ts r) =
  vadd (mvmul (block 4 0 3 4 (k := 1) (l := 9) A) ts)
       (mvmul (block 4 4 3 9 (k := 1) (l := 0) A) r).
Proof.
  destruct A as [r0 [r1 [r2 [r3 [r4 [r5 [r6 A]]]]]]].
  explode r4; explode r5; explode r6; explode ts; explode r.
  cbv - [fadd fsub fmul fopp f0 f1]. tuple_split; ring.
Qed.

(** The reduced system, applied to a rotation. *)
Lemma stage_AR_apply (A : Matrix F 8 13) (r : tup F 9) :
  mvmul (stage_AR A) r =
  vsub (mvmul (block 4 4 3 9 (k := 1) (l := 0) A) r)
       (mvmul (block 4 0 3 4 (k := 1) (l := 9) A)
          (mvmul (elim_B A)
             (mvmul (block 0 4 4 9 (k := 4) (l := 0) A) r))).
Proof.
  unfold stage_AR, elim_AR.
  now rewrite (mvmul_msub Fring), !(mvmul_mmul Fring).
Qed.

Lemma mid_rows_back (A : Matrix F 8 13) (Rm : Matrix3d F) :
  mvmul (ttake 3 (k := 1) (tskip 4 (k := 4) A))
        (tapp (back_substitute A (elim_B A) Rm) (data Rm))
  = mvmul (stage_AR A) (data Rm).
Proof.
  rewrite mid_rows_split, stage_AR_apply. unfold back_substitute.
  now rewrite (mvmul_mopp Fring), (mvmul_vopp Fring), (vadd_vopp_vsub Fring).
Qed.

Lemma seven_equations (A : Matrix F 8 13) (Rm : Matrix3d F) :
  mmul (leading_block A) (elim_B A) = mone 4 ->
  is_root A Rm ->
  mvmul (ttake 7 (k := 1) A)
        (tapp (back_substitute A (elim_B A) Rm) (data Rm))
  = vzero 7.
Proof.
  intros Hinv Hroot. rewrite rows7_split, mid_rows_back, Hroot.
  rewrite top_rows_split. unfold back_substitute.
  rewrite (mvmul_mopp Fring), (mvmul_vopp Fring), <- (mvmul_mmul Fring), Hinv.
  rewrite (mvmul_mone Fring), (vadd_vopp_l Fring). reflexivity.
Qed.

Lemma seven_equations_inv (A : Matrix F 8 13) (Rm : Matrix3d F)
    (ts : tup F 4) :
  mmul (elim_B A) (leading_block A) = mone 4 ->
  mvmul (ttake 7 (k := 1) A) (tapp ts (data Rm)) = vzero 7 ->
  ts = back_substitute A (elim_B A) Rm /\ is_root A Rm.
Proof.
  intros Hinv E. rewrite rows7_split in E.
  change (vzero 7) with (tapp (vzero 4) (vzero 3)) in E.
  apply (tapp_inj (T := F) 4 3) in E. destruct E as [Etop Emid].
  rewrite top_rows_split in Etop. apply (vadd_zero_inv Fring) in Etop.
  assert (ts = back_substitute A (elim_B A) Rm) as Ets.
  { unfold back_substitute.
    rewrite (mvmul_mopp Fring), <- (mvmul_vopp Fring), <- Etop.
    rewrite <- (mvmul_mmul Fring), Hinv. symmetry. apply (mvmul_mone Fring). }
  split; [exact Ets|].
  unfold is_root. rewrite <- mid_rows_back, <- Ets. exact Emid.
Qed.

Lemma unknowns_pose_of_root (A : Matrix F 8 13) (s : Vector3d F) :
  unknowns (pose_of_root A s)
  = tapp (back_substitute A (elim_B A) (cayley_param s))
         (data (cayley_param s)).
Proof.
  unfold unknowns, pose_of_root, make_pose. cbn [t alpha R].
  generalize (back_substitute A (elim_B A) (cayley_param s)) as ts. intros ts.
  explode ts. reflexivity.
Qed.

(** The rows of a correspondence, applied to the unknowns, are the two
    components of its projected residual, up to sign. *)
Lemma row_residual (pose : CameraPose F) (pi xi Xi : Vector3d F) (lambda : F) :
  projected_residual pose pi xi Xi lambda
  = [< - dot (row_even pi xi Xi) (unknowns pose);
       - dot (row_odd pi xi Xi) (unknowns pose) >].
Proof.
  destruct pose as [Rm tv a].
  explode Rm; explode tv; explode pi; explode xi; explode Xi.
  cbv - [fadd fsub fmul fopp f0 f1]. tuple_split; ring.
Qed.

Lemma eqs7_system (q0 q1 q2 q3 : Vector3d F * Vector3d F * Vector3d F)
    (u : tup F 13) :
  mvmul (ttake 7 (k := 1) (system_of q0 q1 q2 q3)) u = vzero 7 <->
  (dot (even_of q0) u = f0 /\ dot (odd_of q0) u = f0) /\
  (dot (even_of q1) u = f0 /\ dot (odd_of q1) u = f0) /\
  (dot (even_of q2) u = f0 /\ dot (odd_of q2) u = f0) /\
  dot (even_of q3) u = f0.
Proof.
  unfold system_of, mvmul, vzero. cbn [ttake tmap tconst fst snd]. split.
  - intros E. injection E as E0 E1 E2 E3 E4 E5 E6. tauto.
  - intros [[E0 E1] [[E2 E3] [[E4 E5] E6]]].
    now rewrite E0, E1, E2, E3, E4, E5, E6.
Qed.

Lemma appended_inv (p x X : list (Vector3d F))
    (output output' : list (CameraPose F)) (A : Matrix F 8 13) (n : Z) :
  fill_A p x X = Some A ->
  gp4ps p x X output = Some (n, output') ->
  forall pose, In pose (appended output output') <->
               exists s, returned_root A s /\ pose = pose_of_root A s.
Proof.
  intros EA. rewrite gp4ps_spec, EA. cbn [obind].
  destruct (roots_from _ _ _) as [ss|] eqn:Ess; cbn [obind]; [|discriminate].
  intros [= <- <-] pose. rewrite appended_app, in_map_iff.
  split.
  - intros (s & <- & Hs). exists s. split; [|reflexivity].
    apply (roots_from_In _ _ _ _ s Ess) in Hs. exact Hs.
  - intros (s & Hs & ->). exists s. split; [reflexivity|].
    apply (roots_from_In _ _ _ _ s Ess). exact Hs.
Qed.

(** C5, as the code has it.  Under the ring laws, with an exact inverse of
    the leading block and exact roots, every pose appended makes both
    components of the projected residual vanish for the correspondences 0,
    1 and 2, and the first component for correspondence 3, whatever
    [lambda] is.  The second component for correspondence 3 is the equation
    of row 7. *)
Theorem gp4ps_residuals (p x X : list (Vector3d F))
    (output output' : list (CameraPose F)) (A : Matrix F 8 13) (n : Z) :
  fill_A p x X = Some A ->
  exact_inverse A -> exact_roots A ->
  gp4ps p x X output = Some (n, output') ->
  forall pose, In pose (appended output output') ->
  forall (i : nat) (pi xi Xi : Vector3d F) (lambda : F),
    nth_error p i = Some pi -> nth_error x i = Some xi ->
    nth_error X i = Some Xi ->
    (i < 3 -> projected_residual pose pi xi Xi lambda = vzero 2) /\
    (i = 3 -> c0 (projected_residual pose pi xi Xi lambda) = f0).
Proof.
  intros EA [Hinv _] Hroots Eg pose Hin i pi xi Xi lambda Ep Ex EX.
  apply (appended_inv p x X output output' A n EA Eg) in Hin
    as (s & Hs & ->).
  pose proof (seven_equations A (cayley_param s) Hinv (Hroots s Hs)) as E7.
  rewrite <- unknowns_pose_of_root in E7.
  destruct (fill_A_inv p x X A EA)
    as (q0 & q1 & q2 & q3 & E0 & E1 & E2 & E3 & ->).
  apply eqs7_system in E7.
  destruct E7 as [[Ee0 Eo0] [[Ee1 Eo1] [[Ee2 Eo2] Ee3]]].
  pose proof (corr_of_nth p x X i pi xi Xi Ep Ex EX) as Ec.
  rewrite row_residual. unfold vzero. cbn [tconst c0 fst].
  split; intros Hi.
  - destruct i as [|[|[|i]]]; [| | |lia].
    + assert (q0 = (pi, xi, Xi)) as -> by congruence.
      unfold even_of, odd_of in Ee0, Eo0. cbn [fst snd] in Ee0, Eo0.
      rewrite Ee0, Eo0. tuple_split; ring.
    + assert (q1 = (pi, xi, Xi)) as -> by congruence.
      unfold even_of, odd_of in Ee1, Eo1. cbn [fst snd] in Ee1, Eo1.
      rewrite Ee1, Eo1. tuple_split; ring.
    + assert (q2 = (pi, xi, Xi)) as -> by congruence.
      unfold even_of, odd_of in Ee2, Eo2. cbn [fst snd] in Ee2, Eo2.
      rewrite Ee2, Eo2. tuple_split; ring.
  - subst i. assert (q3 = (pi, xi, Xi)) as -> by congruence.
    unfold even_of in Ee3. cbn [fst snd] in Ee3. rewrite Ee3. ring.
Qed.

(** *** The set of poses *)

(** With exact collaborators, the poses appended are the poses whose
    rotation is in the range of [cayley_param] and that solve the equations
    of rows 0 to 6. *)
Lemma appended_iff_equations (p x X : list (Vector3d F))
    (output output' : list (CameraPose F)) (A : Matrix F 8 13) (n : Z) :
  fill_A p x X = Some A ->
  exact_collaborators A ->
  gp4ps p x X output = Some (n, output') ->
  forall pose,
    In pose (appended output output') <->
    (exists s, R pose = cayley_param s) /\
    mvmul (ttake 7 (k := 1) A) (unknowns pose) = vzero 7.
Proof.
  intros EA [([Hinv Hinv'] & Hroots & Hall) _] Eg pose.
  rewrite (appended_inv p x X output output' A n EA Eg). split.
  - intros (s & Hs & ->). split; [now exists s|].
    rewrite unknowns_pose_of_root.
    apply seven_equations; [exact Hinv|]. apply Hroots, Hs.
  - intros [[s0 ER] E7]. destruct pose as [Rm tv a]. cbn [R] in ER.
    unfold unknowns in E7. cbn [R t alpha] in E7.
    destruct tv as [t0 [t1 [t2 []]]]. cbn [tapp fst snd] in E7.
    pose proof (seven_equations_inv A Rm ([< t0; t1; t2; a >] : tup F 4)
                  Hinv' E7) as [Ets Hroot].
    rewrite ER in Hroot.
    destruct (Hall s0 Hroot) as (s' & Hs' & Es').
    exists s'. split; [exact Hs'|].
    unfold pose_of_root, make_pose. rewrite Es', <- ER, <- Ets. reflexivity.
Qed.

(** C7, as the code has it.  Under the ring laws, a reordering of the
    correspondences that leaves the fourth one in place gives the same set
    of poses, on inputs where the collaborators are exact before and after:
    the equations of rows 0 to 6 are the same seven equations in another
    order. *)
Theorem gp4ps_permutation_keeping_last (sigma : list nat)
    (p x X : list (Vector3d F)) (A A' : Matrix F 8 13) :
  Permutation sigma [0; 1; 2; 3] ->
  nth_error sigma 3 = Some 3 ->
  length p = 4 -> length x = 4 -> length X = 4 ->
  fill_A p x X = Some A ->
  fill_A (reorder sigma p) (reorder sigma x) (reorder sigma X) = Some A' ->
  exact_collaborators A -> exact_collaborators A' ->
  same_poses (gp4ps p x X [])
             (gp4ps (reorder sigma p) (reorder sigma x) (reorder sigma X) []).
Proof.
  intros HP H3 Lp Lx LX EA EA' HA HA'.
  destruct (gp4ps_Some p x X [] A EA (proj2 HA)) as [out Eg].
  destruct (gp4ps_Some _ _ _ [] A' EA' (proj2 HA')) as [out' Eg'].
  exists (n_sols_of A), out, (n_sols_of A'), out'.
  split; [exact Eg|]. split; [exact Eg'|]. intros pose.
  pose proof (appended_iff_equations _ _ _ _ _ _ _ EA HA Eg pose) as I1.
  pose proof (appended_iff_equations _ _ _ _ _ _ _ EA' HA' Eg' pose) as I2.
  unfold appended in I1, I2. cbn [length skipn] in I1, I2.
  rewrite I1, I2.
  enough (mvmul (ttake 7 (k := 1) A) (unknowns pose) = vzero 7 <->
          mvmul (ttake 7 (k := 1) A') (unknowns pose) = vzero 7) by tauto.
  clear I1 I2 Eg Eg' HA HA'.
  destruct p as [|p0 [|p1 [|p2 [|p3 [|]]]]]; try discriminate.
  destruct x as [|x0 [|x1 [|x2 [|x3 [|]]]]]; try discriminate.
  destruct X as [|X0 [|X1 [|X2 [|X3 [|]]]]]; try discriminate.
  rewrite fill_A_corr in EA, EA'.
  apply perm4_fix3 in HP; [|exact H3]. cbn [In] in HP.
  destruct HP as [ <- | [ <- | [ <- | [ <- | [ <- | [ <- | []]]]]]];
    cbv [corr reorder flat_map nth_error app obind] in EA, EA';
    injection EA as <-; injection EA' as <-;
    rewrite !eqs7_system; tauto.
Qed.
End Pipeline.

(** ** The sample collaborators are exact *)

Lemma column_zero_root (AR : Matrix Z 3 9) :
  (column_zero 9 (two_coeffs AR) = true <->
   mvmul AR (data rotI) = vzero 3) /\
  (column_zero 8 (two_coeffs AR) = true <->
   mvmul AR (data rotZ) = vzero 3).
Proof.
  destruct AR as [r0 [r1 [r2 []]]].
  unfold column_zero, two_coeffs, mvmul, vzero.
  cbn [tmap to_list forallb tnth fst snd tconst f0 Z_scalar].
  generalize (dot r0 (data rotI)), (dot r1 (data rotI)),
             (dot r2 (data rotI)), (dot r0 (data rotZ)),
             (dot r1 (data rotZ)), (dot r2 (data rotZ)).
  intros a0 a1 a2 b0 b1 b2.
  rewrite !andb_true_iff, !Z.eqb_eq.
  split; (split; [intros (-> & -> & -> & _); reflexivity
                 |intros [= -> -> ->]; auto]).
Qed.

Lemma two_rotations_zero : two_rotations [< 0; 0; 0 >]%Z = rotI.
Proof. reflexivity. Qed.

Lemma two_rotations_one : two_rotations [< 0; 0; 1 >]%Z = rotZ.
Proof. reflexivity. Qed.

Lemma sample_roots_exact (A : Matrix Z 8 13) :
  exact_roots A /\ all_roots A /\ (n_sols_of A <= 8)%Z.
Proof.
  unfold exact_roots, all_roots, returned_root, is_root, n_sols_of,
    solutions_of.
  cbn [re3q3 rotation_to_3q3 cayley_param Z_external].
  destruct (column_zero_root (stage_AR A)) as [HI HZ].
  unfold two_solve.
  destruct (column_zero 9 (two_coeffs (stage_AR A))) eqn:E9,
           (column_zero 8 (two_coeffs (stage_AR A))) eqn:E8;
    cbn [fst snd].
  - split; [|split; [|lia]].
    + intros s (i & Hi & Hc).
      destruct i as [|[|i]]; [| |cbn in Hi; lia]; cbn in Hc;
        injection Hc as <-.
      * rewrite two_rotations_zero. now apply HI.
      * rewrite two_rotations_one. now apply HZ.
    + intros s _. unfold two_rotations. destruct (is_zero3 s).
      * exists [< 0; 0; 0 >]%Z. split; [|reflexivity].
        exists 0. split; [cbn; lia|reflexivity].
      * exists [< 0; 0; 1 >]%Z. split; [|reflexivity].
        exists 1. split; [cbn; lia|reflexivity].
  - split; [|split; [|lia]].
    + intros s (i & Hi & Hc).
      destruct i as [|i]; [|cbn in Hi; lia]; cbn in Hc; injection Hc as <-.
      rewrite two_rotations_zero. now apply HI.
    + intros s. unfold two_rotations. destruct (is_zero3 s).
      * intros _. exists [< 0; 0; 0 >]%Z. split; [|reflexivity].
        exists 0. split; [cbn; lia|reflexivity].
      * intros Hr. apply HZ in Hr. discriminate.
  - split; [|split; [|lia]].
    + intros s (i & Hi & Hc).
      destruct i as [|i]; [|cbn in Hi; lia]; cbn in Hc; injection Hc as <-.
      rewrite two_rotations_one. now apply HZ.
    + intros s. unfold two_rotations. destruct (is_zero3 s).
      * intros Hr. apply HI in Hr. discriminate.
      * intros _. exists [< 0; 0; 1 >]%Z. split; [|reflexivity].
        exists 0. split; [cbn; lia|reflexivity].
  - split; [|split; [|lia]].
    + intros s (i & Hi & _). cbn in Hi. lia.
    + intros s. unfold two_rotations. destruct (is_zero3 s); intros Hr.
      * apply HI in Hr. discriminate.
      * apply HZ in Hr. discriminate.
Qed.

Lemma sample_exact (A : Matrix Z 8 13) :
  exact_inverse A -> exact_collaborators A.
Proof.
  intros Hinv. destruct (sample_roots_exact A) as (Hr & Ha & Hn).
  repeat split; try assumption; apply Hinv.
Qed.

Lemma exact_inverse_ok : exact_inverse A_ok.
Proof. split; reflexivity. Qed.

Lemma exact_inverse_swap23 : exact_inverse A_swap23.
Proof. split; reflexivity. Qed.

Lemma exact_inverse_swap01 : exact_inverse A_swap01.
Proof. split; reflexivity. Qed.

(** ** The claims on the sample *)

(** C3 on the sample: the rows of the second correspondence. *)
Lemma fill_A_rows_sample :
  tnth A_ok 2 = Some [< 1; 0; -1; 1; 0; 0; 0; 0; 0; 0; 1; 0; -1 >]%Z /\
  tnth A_ok 3 = Some [< 0; 1; 0; 0; 0; 0; 0; 0; 0; 0; 0; 1; 0 >]%Z.
Proof.
  exact (fill_A_rows (F := Z) Zth p_ok x_ok X_ok A_ok 1
           [< -1; 0; 0 >]%Z [< 1; 0; 1 >]%Z [< 0; 0; 1 >]%Z
           eq_refl (le_S _ _ (le_S _ _ (le_n 2))) eq_refl eq_refl eq_refl).
Defined.

(** C1 on the sample. *)
Lemma gp4ps_elimination_sample :
  exists (B : Matrix4d Z) (AR : Matrix Z 3 9),
    B = inverse (leading_block A_ok) /\
    (forall i j, i < 4 -> j < 4 ->
       ent (leading_block A_ok) i j = ent A_ok i j) /\
    (forall i j, i < 3 -> j < 9 ->
       ent AR i j =
       (ent A_ok (4 + i) (4 + j)
        - fsum 4 (fun k => fsum 4 (fun l =>
            ent A_ok (4 + i) k * ent B k l * ent A_ok l (4 + j))))%F) /\
    gp4ps p_ok x_ok X_ok [] =
      (output' <- pose_loop A_ok B (snd (re3q3 (rotation_to_3q3 AR)))
                    (Z.to_nat (fst (re3q3 (rotation_to_3q3 AR)))) 0 [] ;;
       Some (fst (re3q3 (rotation_to_3q3 AR)), output')).
Proof.
  exact (gp4ps_elimination (F := Z) Zth p_ok x_ok X_ok [] A_ok eq_refl).
Defined.

(** C1: on the sample the complement on four rows has four rows, the last
    one [(0, 3, 0, 0, 0, 0, 0, -6, 0)], and the matrix the rotation stage
    receives has the first three. *)
Lemma elimination_on_four_rows_fails : ~ elimination_on_four_rows (F := Z).
Proof.
  intros Hc. specialize (Hc p_ok x_ok X_ok A_ok eq_refl).
  apply (f_equal (@length _)) in Hc. vm_compute in Hc. discriminate.
Qed.

(** C4 on the sample: the pose of the second root. *)
Lemma gp4ps_back_substitution_sample :
  exists s pose,
    col (solutions_of A_ok) 1 = Some s /\
    nth_error [identity_pose; turned_pose] 1 = Some pose /\
    R pose = cayley_param s /\
    tapp (t pose) ([< alpha pose >] : tup Z 1)
    = vopp (mvmul (mmul (elim_B A_ok)
                     (block 0 4 4 9 (k := 4) (l := 0) A_ok))
                  (data (R pose))).
Proof.
  exact (gp4ps_back_substitution (F := Z) Zth p_ok x_ok X_ok []
           [identity_pose; turned_pose] A_ok 2 1 eq_refl eq_refl (le_n 2)).
Defined.

(** C5 on the sample, for the quarter turn: the third correspondence, and
    the first component of the fourth. *)
Lemma gp4ps_residuals_sample :
  projected_residual turned_pose [< -2; -3; -2 >]%Z [< 2; 2; 2 >]%Z
    [< 0; -1; 0 >]%Z 5%Z = vzero 2 /\
  c0 (projected_residual turned_pose [< 2; 0; -4 >]%Z [< -1; 0; 3 >]%Z
        [< 1; 0; -1 >]%Z 5%Z) = 0%Z.
Proof.
  pose proof (sample_exact A_ok exact_inverse_ok) as [(Hi & Hr & _) _].
  split.
  - refine (proj1 (gp4ps_residuals (F := Z) Zth p_ok x_ok X_ok []
                     [identity_pose; turned_pose] A_ok 2 eq_refl Hi Hr eq_refl
                     turned_pose (or_intror (or_introl eq_refl)) 2 _ _ _ 5%Z
                     eq_refl eq_refl eq_refl) _).
    lia.
  - exact (proj2 (gp4ps_residuals (F := Z) Zth p_ok x_ok X_ok []
                    [identity_pose; turned_pose] A_ok 2 eq_refl Hi Hr eq_refl
                    turned_pose (or_intror (or_introl eq_refl)) 3 _ _ _ 5%Z
                    eq_refl eq_refl eq_refl) eq_refl).
Defined.

(** C5: on the sample the collaborators are exact, the quarter turn is
    among the poses returned, and the second component of its projected
    residual for the fourth correspondence is -3. *)
Lemma residuals_vanish_fails : ~ residuals_vanish (F := Z).
Proof.
  intros Hc.
  specialize (Hc p_ok x_ok X_ok [] [identity_pose; turned_pose] A_ok 2%Z
                eq_refl (sample_exact A_ok exact_inverse_ok) eq_refl
                turned_pose (or_intror (or_introl eq_refl)) 3
                [< 2; 0; -4 >]%Z [< -1; 0; 3 >]%Z [< 1; 0; -1 >]%Z 0%Z).
  assert (3 < 4) as H34 by lia.
  specialize (Hc H34 eq_refl eq_refl eq_refl).
  vm_compute in Hc. discriminate.
Qed.

(** C7 on the sample: the first two correspondences exchanged. *)
Lemma gp4ps_permutation_keeping_last_sample :
  same_poses (gp4ps p_ok x_ok X_ok [])
             (gp4ps (reorder swap01 p_ok) (reorder swap01 x_ok)
                    (reorder swap01 X_ok) []).
Proof.
  refine (gp4ps_permutation_keeping_last (F := Z) Zth swap01
            p_ok x_ok X_ok A_ok A_swap01 _ eq_refl eq_refl eq_refl eq_refl
            eq_refl eq_refl
            (sample_exact A_ok exact_inverse_ok)
            (sample_exact A_swap01 exact_inverse_swap01)).
  apply perm_swap.
Defined.

(** C7: exchanging the last two correspondences of the sample puts the
    equation the quarter turn misses among the seven that are solved.  The
    collaborators are exact on both inputs, the leading block is the same;
    the first call returns the identity and the quarter turn, the second
    the identity alone. *)
Lemma permutation_invariant_fails : ~ permutation_invariant (F := Z).
Proof.
  intros Hc.
  assert (Permutation swap23 [0; 1; 2; 3]) as HP.
  { unfold swap23. do 2 apply perm_skip. apply perm_swap. }
  specialize (Hc swap23 p_ok x_ok X_ok A_ok A_swap23 HP
                eq_refl eq_refl eq_refl eq_refl eq_refl
                (sample_exact A_ok exact_inverse_ok)
                (sample_exact A_swap23 exact_inverse_swap23)).
  destruct Hc as (n & out & n' & out' & E & E' & Hsame).
  vm_compute in E, E'. injection E as <- <-. injection E' as <- <-.
  destruct (proj1 (Hsame turned_pose) (or_intror (or_introl eq_refl)))
    as [E|[]].
  discriminate E.
Qed.

(** * Further properties of gp4ps *)

(** ** When the call has a result, and what the count may be *)

Section Definedness.
Context {F : Type} `{Scalar F} `{External F}.

Lemma tnth_past_end {T : Type} (n : nat) (v : tup T n) (i : nat) :
  n <= i -> tnth v i = None.
Proof.
  revert i; induction n as [|n IH]; intros i Hi; [reflexivity|].
  destruct v as [a v]; destruct i as [|i]; cbn; [lia|].
  apply IH; lia.
Qed.

Lemma col_past_end (solutions : Matrix F 3 8) (i : nat) :
  8 <= i -> col solutions i = None.
Proof.
  intros Hi. destruct solutions as [r0 rest]. unfold col.
  cbn [tmap tseq fst snd]. now rewrite (tnth_past_end 8 r0 i Hi).
Qed.

Lemma roots_from_past_end (solutions : Matrix F 3 8) (k i : nat) :
  i <= 8 -> 8 < i + k -> roots_from solutions k i = None.
Proof.
  revert i; induction k as [|k IH]; intros i Hi Hk; [lia|].
  cbn [roots_from].
  destruct (Nat.eq_dec i 8) as [->|Hne].
  - now rewrite col_past_end.
  - destruct (col solutions i) as [s|]; cbn [obind]; [|reflexivity].
    rewrite IH by lia. reflexivity.
Qed.

Lemma roots_from_bound (solutions : Matrix F 3 8) (k : nat)
    (ss : list (Vector3d F)) :
  roots_from solutions k 0 = Some ss -> k <= 8.
Proof.
  intros E. destruct (Nat.le_gt_cases k 8) as [Hk|Hk]; [exact Hk|].
  rewrite roots_from_past_end in E by lia. discriminate.
Qed.

(** X1.  The call has no defined result exactly when one of the three
    sequences has fewer than 4 elements, or the count re3q3 returns is
    above 8, the number of columns of [solutions]. *)
Theorem gp4ps_undefined_iff (p x X : list (Vector3d F))
    (output : list (CameraPose F)) :
  gp4ps p x X output = None <->
  (length p < 4 \/ length x < 4 \/ length X < 4) \/
  exists A, fill_A p x X = Some A /\ (8 < n_sols_of A)%Z.
Proof.
  rewrite gp4ps_spec. split.
  - destruct (fill_A p x X) as [A|] eqn:EA; cbn [obind].
    + intros E. right. exists A. split; [reflexivity|].
      destruct (Z.le_gt_cases (n_sols_of A) 8) as [Hn|Hn]; [|lia].
      destruct (roots_from_Some (solutions_of A) (Z.to_nat (n_sols_of A)) 0)
        as [ss Ess]; [lia|].
      rewrite Ess in E. discriminate.
    + intros _. left.
      destruct (Nat.lt_ge_cases (length p) 4) as [?|Hp]; [tauto|].
      destruct (Nat.lt_ge_cases (length x) 4) as [?|Hx]; [tauto|].
      destruct (Nat.lt_ge_cases (length X) 4) as [?|HX]; [tauto|].
      destruct (fill_A_Some p x X Hp Hx HX)
        as (? & ? & ? & ? & _ & _ & _ & _ & E).
      congruence.
  - intros [Hl|(A & EA & Hn)].
    + now rewrite (fill_A_None p x X Hl).
    + rewrite EA. cbn [obind].
      rewrite roots_from_past_end by lia. reflexivity.
Qed.

(** X2.  With no assumption on re3q3: when the call returns, the integer
    returned is the count of re3q3 as it is, negative or not, and the
    number of poses appended is that count when it is positive and 0
    otherwise, at most 8. *)
Theorem gp4ps_count_any (p x X : list (Vector3d F))
    (output output' : list (CameraPose F)) (A : Matrix F 8 13) (n : Z) :
  fill_A p x X = Some A ->
  gp4ps p x X output = Some (n, output') ->
  n = n_sols_of A /\
  output' = output ++ appended output output' /\
  Z.of_nat (length (appended output output')) = Z.max 0 n /\
  length (appended output output') <= 8.
Proof.
  intros EA. rewrite gp4ps_spec, EA. cbn [obind].
  destruct (roots_from _ _ _) as [ss|] eqn:Ess; cbn [obind]; [|discriminate].
  intros [= <- <-].
  rewrite appended_app, length_map, (roots_from_length _ _ _ _ Ess).
  pose proof (roots_from_bound _ _ _ Ess) as Hb.
  repeat split; lia.
Qed.

(** X3.  The inverse [B] is taken of a block that holds the offsets and
    ray directions of the first two correspondences and nothing else: two
    inputs that agree on [p[0]], [p[1]], [x[0]] and [x[1]] have the same
    leading block and the same [B]. *)
Theorem elim_B_first_two (p x X p' x' X' : list (Vector3d F))
    (A A' : Matrix F 8 13) :
  fill_A p x X = Some A ->
  fill_A p' x' X' = Some A' ->
  firstn 2 p = firstn 2 p' -> firstn 2 x = firstn 2 x' ->
  leading_block A = leading_block A' /\ elim_B A = elim_B A'.
Proof.
  intros EA EA' Ep Ex.
  destruct (fill_A_inv p x X A EA)
    as (q0 & q1 & q2 & q3 & E0 & E1 & _ & _ & ->).
  destruct (fill_A_inv p' x' X' A' EA')
    as (q0' & q1' & q2' & q3' & E0' & E1' & _ & _ & ->).
  assert (forall i, i < 2 -> forall q q',
             corr p x X i = Some q -> corr p' x' X' i = Some q' ->
             fst q = fst q') as Hq.
  { intros i Hi q q'. unfold corr.
    rewrite (nth_error_firstn_eq _ _ _ _ _ Ep Hi).
    rewrite (nth_error_firstn_eq _ _ _ _ _ Ex Hi).
    destruct (nth_error x' i); cbn [obind]; [|discriminate].
    destruct (nth_error p' i); cbn [obind]; [|discriminate].
    destruct (nth_error X i); cbn [obind]; [|discriminate].
    destruct (nth_error X' i); cbn [obind]; [|discriminate].
    now intros [= <-] [= <-]. }
  assert (leading_block (system_of q0 q1 q2 q3)
          = leading_block (system_of q0' q1' q2' q3')) as El.
  { pose proof (Hq 0 (Nat.lt_0_succ 1) q0 q0' E0 E0') as Hq0.
    pose proof (Hq 1 (Nat.lt_succ_diag_r 1) q1 q1' E1 E1') as Hq1.
    destruct q0 as [[p0 x0] X0], q0' as [[p0' x0'] X0'].
    destruct q1 as [[p1 x1] X1], q1' as [[p1' x1'] X1'].
    cbn [fst] in Hq0, Hq1. injection Hq0 as -> ->. injection Hq1 as -> ->.
    reflexivity. }
  split; [exact El|]. unfold elim_B. exact (f_equal inverse El).
Qed.
End Definedness.

(** ** Uniqueness, completeness and degenerate inputs, under the ring laws *)

Section MoreAlgebra.
Context {F : Type} `{Scalar F} `{External F}.
Hypothesis Fring : ring_theory f0 f1 fadd fmul fsub fopp (@eq F).
Add Ring Fmore : Fring.
Local Open Scope F_scope.

Lemma fopp_zero_inv (a : F) : - a = f0 -> a = f0.
Proof. intros E. replace a with (- - a) by ring. rewrite E. ring. Qed.

Lemma unit_cancel (c a : F) : unit_factor c -> c * a = f0 -> a = f0.
Proof.
  intros [d Hd] E. replace a with (d * c * a) by (rewrite Hd; ring).
  replace (d * c * a) with (d * (c * a)) by ring. rewrite E. ring.
Qed.

(** X4.  With an exact inverse of the leading block, the equations of
    rows 0 to 3 have, for a given rotation, one solution in [[t; alpha]]
    and no other: the vector the back-substitution computes. *)
Theorem back_substitution_unique (A : Matrix F 8 13) (Rm : Matrix3d F)
    (ts : Vector4d F) :
  exact_inverse A ->
  (mvmul (ttake 4 (k := 4) A) (tapp ts (data Rm)) = vzero 4 <->
   ts = back_substitute A (elim_B A) Rm).
Proof.
  intros [Hr Hl]. rewrite top_rows_split by exact Fring. split.
  - intros E. apply (vadd_zero_inv Fring) in E.
    unfold back_substitute.
    rewrite (mvmul_mopp Fring), <- (mvmul_vopp Fring), <- E.
    rewrite <- (mvmul_mmul Fring), Hl. symmetry. apply (mvmul_mone Fring).
  - intros ->. unfold back_substitute.
    rewrite (mvmul_mopp Fring), (mvmul_vopp Fring).
    rewrite <- (mvmul_mmul Fring), Hr, (mvmul_mone Fring).
    apply (vadd_vopp_l Fring).
Qed.

(** The rows of a correspondence vanish on the unknowns of a pose when its
    projected residual does. *)
Lemma rows_of_residual (pose : CameraPose F) (pi xi Xi : Vector3d F)
    (lambda : F) :
  (c0 (projected_residual pose pi xi Xi lambda) = f0 ->
   dot (row_even pi xi Xi) (unknowns pose) = f0) /\
  (projected_residual pose pi xi Xi lambda = vzero 2 ->
   dot (row_even pi xi Xi) (unknowns pose) = f0 /\
   dot (row_odd pi xi Xi) (unknowns pose) = f0).
Proof.
  rewrite (row_residual Fring). unfold vzero. cbn [c0 fst tconst]. split.
  - apply fopp_zero_inv.
  - intros E. injection E as E0 E1. split; now apply fopp_zero_inv.
Qed.

Lemma corr_inv (p x X : list (Vector3d F)) (i : nat)
    (q : Vector3d F * Vector3d F * Vector3d F) :
  corr p x X i = Some q ->
  nth_error p i = Some (fst (fst q)) /\
  nth_error x i = Some (snd (fst q)) /\
  nth_error X i = Some (snd q).
Proof.
  unfold corr.
  destruct (nth_error x i); cbn [obind]; [|discriminate].
  destruct (nth_error p i); cbn [obind]; [|discriminate].
  destruct (nth_error X i); cbn [obind]; [|discriminate].
  now intros [= <-].
Qed.

(** X5.  With exact collaborators the solver is complete: a pose whose
    rotation is in the range of [cayley_param], and whose projected
    residual vanishes for the correspondences 0, 1 and 2 and in its first
    component for correspondence 3, is among the poses appended. *)
Theorem gp4ps_complete (p x X : list (Vector3d F))
    (output output' : list (CameraPose F)) (A : Matrix F 8 13) (n : Z)
    (pose : CameraPose F) (s : Vector3d F) :
  fill_A p x X = Some A ->
  exact_collaborators A ->
  gp4ps p x X output = Some (n, output') ->
  R pose = cayley_param s ->
  (forall i pi xi Xi,
      nth_error p i = Some pi -> nth_error x i = Some xi ->
      nth_error X i = Some Xi ->
      (i < 3 -> exists lambda,
          projected_residual pose pi xi Xi lambda = vzero 2) /\
      (i = 3 -> exists lambda,
          c0 (projected_residual pose pi xi Xi lambda) = f0)) ->
  In pose (appended output output').
Proof.
  intros EA Hex Eg ER Hres.
  apply (appended_iff_equations Fring p x X output output' A n EA Hex Eg).
  split; [now exists s|].
  destruct (fill_A_inv p x X A EA)
    as (q0 & q1 & q2 & q3 & E0 & E1 & E2 & E3 & ->).
  apply eqs7_system.
  destruct (corr_inv _ _ _ _ _ E0) as (Ep0 & Ex0 & EX0).
  destruct (corr_inv _ _ _ _ _ E1) as (Ep1 & Ex1 & EX1).
  destruct (corr_inv _ _ _ _ _ E2) as (Ep2 & Ex2 & EX2).
  destruct (corr_inv _ _ _ _ _ E3) as (Ep3 & Ex3 & EX3).
  destruct (proj1 (Hres 0 _ _ _ Ep0 Ex0 EX0)) as [l0 H0']; [lia|].
  destruct (proj1 (Hres 1 _ _ _ Ep1 Ex1 EX1)) as [l1 H1']; [lia|].
  destruct (proj1 (Hres 2 _ _ _ Ep2 Ex2 EX2)) as [l2 H2']; [lia|].
  destruct (proj2 (Hres 3 _ _ _ Ep3 Ex3 EX3) eq_refl) as [l3 H3'].
  unfold even_of, odd_of.
  repeat split;
    first [ now apply (proj2 (rows_of_residual _ _ _ _ l0) H0')
          | now apply (proj2 (rows_of_residual _ _ _ _ l1) H1')
          | now apply (proj2 (rows_of_residual _ _ _ _ l2) H2')
          | now apply (proj1 (rows_of_residual _ _ _ _ l3) H3') ].
Qed.

Lemma projected_zero (pose : CameraPose F) (pi xi Xi : Vector3d F)
    (lambda : F) :
  residual pose pi xi Xi lambda = vzero 3 ->
  projected_residual pose pi xi Xi lambda = vzero 2.
Proof.
  unfold projected_residual. intros ->.
  explode xi. cbv - [fadd fsub fmul fopp f0 f1]. tuple_split; ring.
Qed.

(** X6.  Round trip: when the four correspondences come from a pose, that
    is [alpha * p[i] + lambda_i * x[i] = R * X[i] + t] for some
    [lambda_i], and the rotation is in the range of [cayley_param], the
    solver with exact collaborators returns that pose. *)
Theorem gp4ps_recovers_pose (p x X : list (Vector3d F))
    (output output' : list (CameraPose F)) (A : Matrix F 8 13) (n : Z)
    (pose : CameraPose F) (s : Vector3d F) :
  fill_A p x X = Some A ->
  exact_collaborators A ->
  gp4ps p x X output = Some (n, output') ->
  R pose = cayley_param s ->
  (forall i pi xi Xi,
      i < 4 ->
      nth_error p i = Some pi -> nth_error x i = Some xi ->
      nth_error X i = Some Xi ->
      exists lambda, residual pose pi xi Xi lambda = vzero 3) ->
  In pose (appended output output').
Proof.
  intros EA Hex Eg ER Hres.
  apply (appended_iff_equations Fring p x X output output' A n EA Hex Eg).
  split; [now exists s|].
  destruct (fill_A_inv p x X A EA)
    as (q0 & q1 & q2 & q3 & E0 & E1 & E2 & E3 & ->).
  apply eqs7_system.
  destruct (corr_inv _ _ _ _ _ E0) as (Ep0 & Ex0 & EX0).
  destruct (corr_inv _ _ _ _ _ E1) as (Ep1 & Ex1 & EX1).
  destruct (corr_inv _ _ _ _ _ E2) as (Ep2 & Ex2 & EX2).
  destruct (corr_inv _ _ _ _ _ E3) as (Ep3 & Ex3 & EX3).
  destruct (Hres 0 _ _ _ (Nat.lt_0_succ 3) Ep0 Ex0 EX0) as [l0 H0'].
  destruct (Hres 1 _ _ _ (le_n_S _ _ (Nat.lt_0_succ 2)) Ep1 Ex1 EX1)
    as [l1 H1'].
  destruct (Hres 2 _ _ _ (le_S _ _ (le_n 3)) Ep2 Ex2 EX2) as [l2 H2'].
  destruct (Hres 3 _ _ _ (le_n 4) Ep3 Ex3 EX3) as [l3 H3'].
  apply projected_zero in H0', H1', H2', H3'.
  unfold even_of, odd_of.
  repeat split;
    first [ now apply (proj2 (rows_of_residual _ _ _ _ l0) H0')
          | now apply (proj2 (rows_of_residual _ _ _ _ l1) H1')
          | now apply (proj2 (rows_of_residual _ _ _ _ l2) H2')
          | now apply (proj2 (rows_of_residual _ _ _ _ l3) H3') ].
Qed.

(** *** Inputs on which the leading block has no inverse *)

(** Entry [(i, j)] of both sides of an equation between matrices. *)
Ltac entry_of E i j K :=
  pose proof (f_equal (fun M : Matrix4d F => ent M i j) E) as K;
  cbv - [fadd fsub fmul fopp f0 f1] in K.

(** From [P00 = 1], [P11 = 1], [P01 = 0] and [P10 = 0], where
    [P00 * P11 = P01 * P10] by the ring laws, [1 = 0]. *)
Ltac crossed E00 E11 E01 E10 :=
  match type of E00 with
  | ?P00 = _ =>
      match type of E11 with
      | ?P11 = _ =>
          match type of E01 with
          | ?P01 = _ =>
              match type of E10 with
              | ?P10 = _ =>
                  let K := fresh "K" in
                  assert (P00 * P11 = P01 * P10) as K by ring;
                  rewrite E00, E11, E01, E10 in K;
                  replace f1 with (f1 * f1) by ring;
                  rewrite K; ring
              end
          end
      end
  end.

(** X7.  A ray direction with third component 0 in one of the first two
    correspondences makes the leading block singular: no matrix is a right
    inverse of it, so [inverse] cannot return an exact inverse. *)
Theorem leading_block_flat_ray (p x X : list (Vector3d F))
    (A : Matrix F 8 13) (i : nat) (xi : Vector3d F) :
  fill_A p x X = Some A ->
  f1 <> f0 ->
  i < 2 -> nth_error x i = Some xi -> c2 xi = f0 ->
  (forall B, mmul (leading_block A) B <> mone 4) /\ ~ exact_inverse A.
Proof.
  intros EA Hne Hi Exi Hz.
  assert (forall B, mmul (leading_block A) B <> mone 4) as Hno.
  { intros B E. apply Hne.
    destruct (fill_A_inv p x X A EA)
      as (q0 & q1 & q2 & q3 & E0 & E1 & _ & _ & ->).
    destruct (corr_inv _ _ _ _ _ E0) as (_ & Ex0 & _).
    destruct (corr_inv _ _ _ _ _ E1) as (_ & Ex1 & _).
    destruct q0 as [[p0 x0] X0], q1 as [[p1 x1] X1].
    cbn [fst snd] in Ex0, Ex1.
    destruct B as [b0 [b1 [b2 [b3 []]]]].
    explode b0; explode b1; explode b2; explode b3.
    destruct p0 as [p00 [p01 [p02 []]]], p1 as [p10 [p11 [p12 []]]].
    destruct i as [|[|i]]; [| |lia].
    - assert (x0 = xi) as -> by congruence.
      destruct xi as [xa [xb [xz []]]]. cbn [c2 fst snd] in Hz. subst xz.
      destruct x1 as [ya [yb [yz []]]].
      entry_of E 0 0 E00. entry_of E 1 1 E11.
      entry_of E 0 1 E01. entry_of E 1 0 E10.
      crossed E00 E11 E01 E10.
    - assert (x1 = xi) as -> by congruence.
      destruct xi as [xa [xb [xz []]]]. cbn [c2 fst snd] in Hz. subst xz.
      destruct x0 as [ya [yb [yz []]]].
      entry_of E 2 2 E22. entry_of E 3 3 E33.
      entry_of E 2 3 E23. entry_of E 3 2 E32.
      crossed E22 E33 E23 E32. }
  split; [exact Hno|]. intros [Hr _]. exact (Hno _ Hr).
Qed.

(** X8.  When the offsets of the first two correspondences lie along
    their rays, as they do for a central camera, where they are zero, the
    column of [alpha] in the leading block is zero: no matrix is a left
    inverse of it, so [inverse] cannot return an exact inverse. *)
Theorem leading_block_offsets_along_rays (p x X : list (Vector3d F))
    (A : Matrix F 8 13) (x0 x1 : Vector3d F) (mu0 mu1 : F) :
  fill_A p x X = Some A ->
  f1 <> f0 ->
  nth_error x 0 = Some x0 -> nth_error p 0 = Some (vscale mu0 x0) ->
  nth_error x 1 = Some x1 -> nth_error p 1 = Some (vscale mu1 x1) ->
  (forall B, mmul B (leading_block A) <> mone 4) /\ ~ exact_inverse A.
Proof.
  intros EA Hne Ex0 Ep0 Ex1 Ep1.
  assert (forall B, mmul B (leading_block A) <> mone 4) as Hno.
  { intros B E. apply Hne.
    destruct (fill_A_inv p x X A EA)
      as (q0 & q1 & q2 & q3 & E0 & E1 & _ & _ & ->).
    destruct (corr_inv _ _ _ _ _ E0) as (Ep0' & Ex0' & _).
    destruct (corr_inv _ _ _ _ _ E1) as (Ep1' & Ex1' & _).
    destruct q0 as [[p0 y0] X0], q1 as [[p1 y1] X1].
    cbn [fst snd] in Ep0', Ex0', Ep1', Ex1'.
    assert (y0 = x0) as -> by congruence.
    assert (y1 = x1) as -> by congruence.
    assert (p0 = vscale mu0 x0) as -> by congruence.
    assert (p1 = vscale mu1 x1) as -> by congruence.
    destruct B as [b0 [b1 [b2 [b3 []]]]].
    explode b0; explode b1; explode b2; explode b3.
    destruct x0 as [xa [xb [xz []]]], x1 as [ya [yb [yz []]]].
    entry_of E 3 3 E33.
    match type of E33 with
    | ?P = _ => assert (P = f0) as K by ring
    end.
    rewrite <- E33. exact K. }
  split; [exact Hno|]. intros [_ Hl]. exact (Hno _ Hl).
Qed.

(** *** Rescaled ray directions *)

Lemma nth_error_scale_rays (cs : list F) (x : list (Vector3d F)) (i : nat) :
  nth_error (scale_rays cs x) i =
  match nth_error cs i, nth_error x i with
  | Some c, Some v => Some (vscale c v)
  | _, _ => None
  end.
Proof.
  revert x i; induction cs as [|c cs IH]; intros x i.
  - destruct i; reflexivity.
  - destruct x as [|v x]; cbn [scale_rays].
    + destruct i as [|i]; [reflexivity|]. cbn [nth_error].
      now destruct (nth_error cs i).
    + destruct i as [|i]; [reflexivity|]. cbn [nth_error]. apply IH.
Qed.

Lemma corr_scale_rays (cs : list F) (p x X : list (Vector3d F)) (i : nat)
    (q q' : Vector3d F * Vector3d F * Vector3d F) :
  Forall unit_factor cs ->
  corr p x X i = Some q -> corr p (scale_rays cs x) X i = Some q' ->
  exists c, unit_factor c /\
            q' = (fst (fst q), vscale c (snd (fst q)), snd q).
Proof.
  intros Hcs. unfold corr. rewrite nth_error_scale_rays.
  destruct (nth_error cs i) as [c|] eqn:Ec; [|discriminate].
  destruct (nth_error x i) as [xi|]; cbn [obind]; [|discriminate].
  destruct (nth_error p i) as [pi|]; cbn [obind]; [|discriminate].
  destruct (nth_error X i) as [Xi|]; cbn [obind]; [|discriminate].
  intros [= <-] [= <-]. exists c. split; [|reflexivity].
  apply nth_error_In in Ec. rewrite Forall_forall in Hcs. now apply Hcs.
Qed.

Lemma scaled_rows (c : F) (pi xi Xi : Vector3d F) (u : tup F 13) :
  dot (row_even pi (vscale c xi) Xi) u = c * dot (row_even pi xi Xi) u /\
  dot (row_odd pi (vscale c xi) Xi) u = c * dot (row_odd pi xi Xi) u.
Proof.
  explode pi; explode xi; explode Xi; explode u.
  cbv - [fadd fsub fmul fopp f0 f1]. split; ring.
Qed.

Lemma scaled_rows_iff (c : F) (q : Vector3d F * Vector3d F * Vector3d F)
    (u : tup F 13) :
  unit_factor c ->
  (dot (even_of (fst (fst q), vscale c (snd (fst q)), snd q)) u = f0 <->
   dot (even_of q) u = f0) /\
  (dot (odd_of (fst (fst q), vscale c (snd (fst q)), snd q)) u = f0 <->
   dot (odd_of q) u = f0).
Proof.
  intros Hc. destruct q as [[pi xi] Xi]. unfold even_of, odd_of.
  cbn [fst snd]. destruct (scaled_rows c pi xi Xi u) as [-> ->].
  split; (split; [apply (unit_cancel _ _ Hc)|intros ->; ring]).
Qed.

(** X9.  The set of poses does not depend on the scale or the sense of the
    ray directions: multiplying each [x[i]] by a factor that has an
    inverse leaves it as it is, on inputs where the collaborators are
    exact before and after. *)
Theorem gp4ps_ray_scale (cs : list F) (p x X : list (Vector3d F))
    (A A' : Matrix F 8 13) :
  Forall unit_factor cs ->
  fill_A p x X = Some A ->
  fill_A p (scale_rays cs x) X = Some A' ->
  exact_collaborators A -> exact_collaborators A' ->
  same_poses (gp4ps p x X []) (gp4ps p (scale_rays cs x) X []).
Proof.
  intros Hcs EA EA' HA HA'.
  destruct (gp4ps_Some p x X [] A EA (proj2 HA)) as [out Eg].
  destruct (gp4ps_Some _ _ _ [] A' EA' (proj2 HA')) as [out' Eg'].
  exists (n_sols_of A), out, (n_sols_of A'), out'.
  split; [exact Eg|]. split; [exact Eg'|]. intros pose.
  pose proof (appended_iff_equations Fring _ _ _ _ _ _ _ EA HA Eg pose) as I1.
  pose proof (appended_iff_equations Fring _ _ _ _ _ _ _ EA' HA' Eg' pose)
    as I2.
  unfold appended in I1, I2. cbn [length skipn] in I1, I2.
  rewrite I1, I2.
  enough (mvmul (ttake 7 (k := 1) A) (unknowns pose) = vzero 7 <->
          mvmul (ttake 7 (k := 1) A') (unknowns pose) = vzero 7) by tauto.
  destruct (fill_A_inv _ _ _ _ EA)
    as (q0 & q1 & q2 & q3 & E0 & E1 & E2 & E3 & ->).
  destruct (fill_A_inv _ _ _ _ EA')
    as (q0' & q1' & q2' & q3' & E0' & E1' & E2' & E3' & ->).
  destruct (corr_scale_rays cs p x X 0 q0 q0' Hcs E0 E0') as (k0 & U0 & ->).
  destruct (corr_scale_rays cs p x X 1 q1 q1' Hcs E1 E1') as (k1 & U1 & ->).
  destruct (corr_scale_rays cs p x X 2 q2 q2' Hcs E2 E2') as (k2 & U2 & ->).
  destruct (corr_scale_rays cs p x X 3 q3 q3' Hcs E3 E3') as (k3 & U3 & ->).
  rewrite !eqs7_system.
  destruct (scaled_rows_iff k0 q0 (unknowns pose) U0) as [-> ->].
  destruct (scaled_rows_iff k1 q1 (unknowns pose) U1) as [-> ->].
  destruct (scaled_rows_iff k2 q2 (unknowns pose) U2) as [-> ->].
  destruct (scaled_rows_iff k3 q3 (unknowns pose) U3) as [-> _].
  reflexivity.
Qed.

(** *** A move of the world frame, a change of unit of the offsets *)

Lemma nth_error_move_world (d : Vector3d F) (X : list (Vector3d F))
    (i : nat) :
  nth_error (move_world d X) i
  = option_map (fun Xi : Vector3d F => vadd Xi d) (nth_error X i).
Proof. apply nth_error_map. Qed.

Lemma nth_error_scale_offsets (c : F) (p : list (Vector3d F)) (i : nat) :
  nth_error (scale_offsets c p) i
  = option_map (fun pi : Vector3d F => vscale c pi) (nth_error p i).
Proof. apply nth_error_map. Qed.

Lemma corr_move_world (d : Vector3d F) (p x X : list (Vector3d F)) (i : nat)
    (q q' : Vector3d F * Vector3d F * Vector3d F) :
  corr p x X i = Some q -> corr p x (move_world d X) i = Some q' ->
  q' = (fst (fst q), snd (fst q), vadd (snd q) d).
Proof.
  unfold corr. rewrite nth_error_move_world.
  destruct (nth_error x i); cbn [obind]; [|discriminate].
  destruct (nth_error p i); cbn [obind]; [|discriminate].
  destruct (nth_error X i); cbn [obind option_map]; [|discriminate].
  intros E1 E2. injection E1 as <-. injection E2 as <-. reflexivity.
Qed.

Lemma corr_scale_offsets (c : F) (p x X : list (Vector3d F)) (i : nat)
    (q q' : Vector3d F * Vector3d F * Vector3d F) :
  corr p x X i = Some q -> corr (scale_offsets c p) x X i = Some q' ->
  q' = (vscale c (fst (fst q)), snd (fst q), snd q).
Proof.
  unfold corr. rewrite nth_error_scale_offsets.
  destruct (nth_error x i); cbn [obind]; [|discriminate].
  destruct (nth_error p i); cbn [obind option_map]; [|discriminate].
  destruct (nth_error X i); cbn [obind]; [|discriminate].
  intros E1 E2. injection E1 as <-. injection E2 as <-. reflexivity.
Qed.

Lemma moved_rows (d : Vector3d F) (pose : CameraPose F)
    (q : Vector3d F * Vector3d F * Vector3d F) :
  dot (even_of (fst (fst q), snd (fst q), vadd (snd q) d))
      (unknowns (moved_pose d pose))
  = dot (even_of q) (unknowns pose) /\
  dot (odd_of (fst (fst q), snd (fst q), vadd (snd q) d))
      (unknowns (moved_pose d pose))
  = dot (odd_of q) (unknowns pose).
Proof.
  destruct q as [[pi xi] Xi], pose as [Rm tv a].
  explode pi; explode xi; explode Xi; explode d; explode Rm; explode tv.
  cbv - [fadd fsub fmul fopp f0 f1]. split; ring.
Qed.

Lemma rescaled_rows (c d : F) (pose : CameraPose F)
    (q : Vector3d F * Vector3d F * Vector3d F) :
  d * c = f1 ->
  dot (even_of (vscale c (fst (fst q)), snd (fst q), snd q))
      (unknowns (rescaled_pose d pose))
  = dot (even_of q) (unknowns pose) /\
  dot (odd_of (vscale c (fst (fst q)), snd (fst q), snd q))
      (unknowns (rescaled_pose d pose))
  = dot (odd_of q) (unknowns pose).
Proof.
  intros Hd. destruct q as [[pi xi] Xi], pose as [Rm tv a].
  explode pi; explode xi; explode Xi; explode Rm; explode tv.
  cbv - [fadd fsub fmul fopp f0 f1].
  split; ring [Hd].
Qed.

(** X10.  A move of the world frame moves the poses with it: with every
    world point moved by [d], the poses appended are those of the call
    before the move, each with [t - R * d] for its translation, the
    rotation and the scale as they were; on inputs where the collaborators
    are exact before and after. *)
Theorem gp4ps_world_move (d : Vector3d F) (p x X : list (Vector3d F))
    (A A' : Matrix F 8 13) :
  fill_A p x X = Some A ->
  fill_A p x (move_world d X) = Some A' ->
  exact_collaborators A -> exact_collaborators A' ->
  exists n out n' out',
    gp4ps p x X [] = Some (n, out) /\
    gp4ps p x (move_world d X) [] = Some (n', out') /\
    forall pose, In pose out <-> In (moved_pose d pose) out'.
Proof.
  intros EA EA' HA HA'.
  destruct (gp4ps_Some p x X [] A EA (proj2 HA)) as [out Eg].
  destruct (gp4ps_Some _ _ _ [] A' EA' (proj2 HA')) as [out' Eg'].
  exists (n_sols_of A), out, (n_sols_of A'), out'.
  split; [exact Eg|]. split; [exact Eg'|]. intros pose.
  pose proof (appended_iff_equations Fring _ _ _ _ _ _ _ EA HA Eg pose) as I1.
  pose proof (appended_iff_equations Fring _ _ _ _ _ _ _ EA' HA' Eg'
                (moved_pose d pose)) as I2.
  unfold appended in I1, I2. cbn [length skipn] in I1, I2.
  rewrite I1, I2. cbn [moved_pose R].
  enough (mvmul (ttake 7 (k := 1) A) (unknowns pose) = vzero 7 <->
          mvmul (ttake 7 (k := 1) A') (unknowns (moved_pose d pose))
          = vzero 7) as K by (unfold moved_pose in K; tauto).
  destruct (fill_A_inv _ _ _ _ EA)
    as (q0 & q1 & q2 & q3 & E0 & E1 & E2 & E3 & ->).
  destruct (fill_A_inv _ _ _ _ EA')
    as (q0' & q1' & q2' & q3' & E0' & E1' & E2' & E3' & ->).
  rewrite (corr_move_world d p x X 0 q0 q0' E0 E0').
  rewrite (corr_move_world d p x X 1 q1 q1' E1 E1').
  rewrite (corr_move_world d p x X 2 q2 q2' E2 E2').
  rewrite (corr_move_world d p x X 3 q3 q3' E3 E3').
  rewrite !eqs7_system.
  destruct (moved_rows d pose q0) as [-> ->].
  destruct (moved_rows d pose q1) as [-> ->].
  destruct (moved_rows d pose q2) as [-> ->].
  destruct (moved_rows d pose q3) as [-> _].
  reflexivity.
Qed.

(** X11.  A change of unit of the offsets changes the scale of the poses
    and nothing else: with every offset [p[i]] multiplied by [c], the poses
    appended are those of the call before, each with its [alpha] multiplied
    by the inverse [d] of [c], the rotation and the translation as they
    were; on inputs where the collaborators are exact before and after. *)
Theorem gp4ps_offset_unit (c d : F) (p x X : list (Vector3d F))
    (A A' : Matrix F 8 13) :
  d * c = f1 ->
  fill_A p x X = Some A ->
  fill_A (scale_offsets c p) x X = Some A' ->
  exact_collaborators A -> exact_collaborators A' ->
  exists n out n' out',
    gp4ps p x X [] = Some (n, out) /\
    gp4ps (scale_offsets c p) x X [] = Some (n', out') /\
    forall pose, In pose out <-> In (rescaled_pose d pose) out'.
Proof.
  intros Hd EA EA' HA HA'.
  destruct (gp4ps_Some p x X [] A EA (proj2 HA)) as [out Eg].
  destruct (gp4ps_Some _ _ _ [] A' EA' (proj2 HA')) as [out' Eg'].
  exists (n_sols_of A), out, (n_sols_of A'), out'.
  split; [exact Eg|]. split; [exact Eg'|]. intros pose.
  pose proof (appended_iff_equations Fring _ _ _ _ _ _ _ EA HA Eg pose) as I1.
  pose proof (appended_iff_equations Fring _ _ _ _ _ _ _ EA' HA' Eg'
                (rescaled_pose d pose)) as I2.
  unfold appended in I1, I2. cbn [length skipn] in I1, I2.
  rewrite I1, I2. cbn [rescaled_pose R].
  enough (mvmul (ttake 7 (k := 1) A) (unknowns pose) = vzero 7 <->
          mvmul (ttake 7 (k := 1) A') (unknowns (rescaled_pose d pose))
          = vzero 7) as K by (unfold rescaled_pose in K; tauto).
  destruct (fill_A_inv _ _ _ _ EA)
    as (q0 & q1 & q2 & q3 & E0 & E1 & E2 & E3 & ->).
  destruct (fill_A_inv _ _ _ _ EA')
    as (q0' & q1' & q2' & q3' & E0' & E1' & E2' & E3' & ->).
  rewrite (corr_scale_offsets c p x X 0 q0 q0' E0 E0').
  rewrite (corr_scale_offsets c p x X 1 q1 q1' E1 E1').
  rewrite (corr_scale_offsets c p x X 2 q2 q2' E2 E2').
  rewrite (corr_scale_offsets c p x X 3 q3 q3' E3 E3').
  rewrite !eqs7_system.
  destruct (rescaled_rows c d pose q0 Hd) as [-> ->].
  destruct (rescaled_rows c d pose q1 Hd) as [-> ->].
  destruct (rescaled_rows c d pose q2 Hd) as [-> ->].
  destruct (rescaled_rows c d pose q3 Hd) as [-> _].
  reflexivity.
Qed.
End MoreAlgebra.

(** * Properties of the benchmark *)

(** ** Sorting *)

Lemma sort_insert_perm (a : Z) (l : list Z) :
  Permutation (sort_insert a l) (a :: l).
Proof.
  induction l as [|b l IH]; cbn [sort_insert]; [reflexivity|].
  destruct (a <=? b)%Z; [reflexivity|].
  rewrite IH. apply perm_swap.
Qed.

Lemma std_sort_perm (l : list Z) : Permutation (std_sort l) l.
Proof.
  induction l as [|a l IH]; cbn [std_sort]; [reflexivity|].
  rewrite sort_insert_perm. now constructor.
Qed.

Lemma sort_insert_sorted (a : Z) (l : list Z) :
  Sorted Z.le l -> Sorted Z.le (sort_insert a l).
Proof.
  induction l as [|b l IH]; cbn [sort_insert]; intros Hs.
  - repeat constructor.
  - destruct (a <=? b)%Z eqn:E.
    + constructor; [exact Hs|]. constructor. now apply Z.leb_le.
    + apply Z.leb_gt in E. inversion Hs as [|? ? Hl Hd]; subst.
      constructor; [now apply IH|].
      destruct l as [|c l]; cbn [sort_insert].
      * constructor. lia.
      * destruct (a <=? c)%Z; constructor; [lia|].
        now inversion Hd.
Qed.

Lemma std_sort_sorted (l : list Z) : StronglySorted Z.le (std_sort l).
Proof.
  apply Sorted_StronglySorted; [exact Z.le_trans|].
  induction l as [|a l IH]; cbn [std_sort]; [constructor|].
  now apply sort_insert_sorted.
Qed.

(** ** The two loops *)

Section BenchmarkFacts.
Context {Name Options Instance Pose E : Type}.
Context `{Double E} `{Solver Name Instance Pose E}
        `{Harness Options Instance}.

Lemma pose_pass_spec (instance : Instance) (tol : E) (solutions : list Pose)
    (valid : Z) (start : E) :
  pose_pass instance tol solutions valid start =
  ((valid + Z.of_nat (length (filter (fun pose => is_valid instance pose tol)
                                     solutions)))%Z,
   least_error instance solutions start).
Proof.
  revert valid start; induction solutions as [|pose rest IH];
    intros valid start; cbn [pose_pass filter least_error fold_left length].
  - f_equal. lia.
  - rewrite IH. unfold least_error. f_equal.
    destruct (is_valid instance pose tol); cbn [length]; lia.
Qed.

(** Without any law of [<]: an error below [tol] at the end was below
    [tol] at the start, or is the error of one of the poses. *)
Lemma least_error_below (instance : Instance) (tol : E)
    (solutions : list Pose) (start : E) :
  dlt (least_error instance solutions start) tol = true ->
  dlt start tol = true \/
  existsb (fun pose => dlt (compute_pose_error instance pose) tol) solutions
  = true.
Proof.
  revert start; induction solutions as [|pose rest IH]; intros start;
    cbn [least_error fold_left existsb].
  - auto.
  - intros Hl. apply IH in Hl. destruct Hl as [Hl|Hl].
    + unfold std_min in Hl.
      destruct (dlt (compute_pose_error instance pose) start).
      * right. now rewrite Hl.
      * now left.
    + right. rewrite Hl. apply orb_true_r.
Qed.

(** With the order laws, the converse. *)
Lemma least_error_below_iff (instance : Instance) (tol : E)
    (solutions : list Pose) (start : E) :
  dlt_ordered ->
  dlt (least_error instance solutions start) tol =
  dlt start tol
  || existsb (fun pose => dlt (compute_pose_error instance pose) tol)
       solutions.
Proof.
  intros [Ltrans Lleast].
  revert start; induction solutions as [|pose rest IH]; intros start;
    cbn [least_error fold_left existsb].
  - now rewrite orb_false_r.
  - fold (least_error instance rest
            (std_min start (compute_pose_error instance pose))).
    rewrite IH, orb_assoc. f_equal. unfold std_min.
    destruct (dlt (compute_pose_error instance pose) start) eqn:Eb.
    + destruct (dlt (compute_pose_error instance pose) tol) eqn:Et.
      * now rewrite orb_true_r.
      * rewrite orb_false_r.
        destruct (dlt start tol) eqn:Es; [|reflexivity].
        rewrite (Ltrans _ _ _ Eb Es) in Et. discriminate.
    + destruct (dlt (compute_pose_error instance pose) tol) eqn:Et.
      * rewrite (Lleast _ _ _ Eb Et). reflexivity.
      * now rewrite orb_false_r.
Qed.

Lemma quality_loop_spec (tol : E) (problem_instances : list Instance)
    (result : BenchmarkResult Name Options) :
  quality_loop tol problem_instances result =
  {| instances_ := instances_ result;
     name_ := name_ result;
     options_ := options_ result;
     solutions_ :=
       (solutions_ result + zsum (map count_of problem_instances))%Z;
     valid_solutions_ :=
       (valid_solutions_ result
        + Z.of_nat (length (flat_map (valid_poses tol) problem_instances)))%Z;
     found_gt_pose_ :=
       (found_gt_pose_ result
        + Z.of_nat (length (filter (counted tol) problem_instances)))%Z;
     runtime_ns_ := runtime_ns_ result |}.
Proof.
  revert result; induction problem_instances as [|instance rest IH];
    intros result.
  - destruct result. cbn. f_equal; lia.
  - cbn [quality_loop]. rewrite IH, pose_pass_spec.
    cbn [instances_ name_ options_ solutions_ valid_solutions_
         found_gt_pose_ runtime_ns_ fst snd map flat_map filter zsum
         fold_right].
    fold (poses_of instance) (count_of instance) (counted tol instance).
    fold (valid_poses tol instance).
    fold (zsum (map count_of rest)).
    rewrite length_app.
    f_equal; try lia.
    destruct (counted tol instance); cbn [length]; lia.
Qed.

Lemma timing_loop_spec (problem_instances : list Instance) (k iter : nat)
    (solutions : list Pose) (runtimes : list Z) :
  timing_loop problem_instances k iter solutions runtimes =
  runtimes
  ++ map (fun i => (now (2 * i + 1) - now (2 * i))%Z) (seq iter k).
Proof.
  revert iter solutions runtimes; induction k as [|k IH];
    intros iter solutions runtimes; cbn [timing_loop seq map].
  - now rewrite app_nil_r.
  - rewrite IH, <- app_assoc. reflexivity.
Qed.

Lemma benchmark_spec (n_problems : Z) (options : Options) (tol : E) :
  let problem_instances := generate_problems n_problems options in
  benchmark n_problems options tol =
  (runtime <- nth_error (std_sort durations) 5 ;;
   Some {| instances_ := n_problems;
           name_ := name;
           options_ := options;
           solutions_ := zsum (map count_of problem_instances);
           valid_solutions_ :=
             Z.of_nat (length (flat_map (valid_poses tol) problem_instances));
           found_gt_pose_ :=
             Z.of_nat (length (filter (counted tol) problem_instances));
           runtime_ns_ := runtime |}).
Proof.
  intros problem_instances. unfold benchmark.
  fold problem_instances.
  rewrite timing_loop_spec, quality_loop_spec. cbn [app].
  fold durations.
  assert (length (std_sort durations) = 10) as ->.
  { rewrite (Permutation_length (std_sort_perm durations)).
    unfold durations. now rewrite length_map, length_seq. }
  change (10 / 2) with 5.
  destruct (nth_error (std_sort durations) 5); reflexivity.
Qed.

(** X12.  The counters of the result: [solutions_] is the sum of the
    integers the solver returned; [valid_solutions_] counts poses the
    solver left in its vector, so it is at most their number, and at most
    [solutions_] when the solver returns the number of poses it leaves, as
    gp4ps does; [found_gt_pose_] is at most the number of instances. *)
Theorem benchmark_counters (n_problems : Z) (options : Options) (tol : E)
    (result : BenchmarkResult Name Options) :
  benchmark n_problems options tol = Some result ->
  let problem_instances := generate_problems n_problems options in
  solutions_ result = zsum (map count_of problem_instances) /\
  (0 <= valid_solutions_ result
     <= Z.of_nat (length (flat_map poses_of problem_instances)))%Z /\
  (0 <= found_gt_pose_ result <= Z.of_nat (length problem_instances))%Z /\
  ((forall instance, In instance problem_instances ->
       count_of instance = Z.of_nat (length (poses_of instance))) ->
   (valid_solutions_ result <= solutions_ result)%Z).
Proof.
  intros Eb problem_instances.
  pose proof (benchmark_spec n_problems options tol) as Es.
  cbv zeta in Es. fold problem_instances in Es. rewrite Es in Eb.
  destruct (nth_error (std_sort durations) 5) as [runtime|];
    cbn [obind] in Eb; [|discriminate].
  injection Eb as <-.
  cbn [solutions_ valid_solutions_ found_gt_pose_].
  assert (forall l : list Instance,
             length (flat_map (valid_poses tol) l)
             <= length (flat_map poses_of l)) as Hv.
  { induction l as [|instance l IH]; cbn [flat_map]; [lia|].
    rewrite !length_app. unfold valid_poses at 1.
    pose proof (filter_length_le
                  (fun pose => is_valid instance pose tol)
                  (poses_of instance)). lia. }
  split; [reflexivity|]. split; [specialize (Hv problem_instances); lia|].
  split.
  - pose proof (filter_length_le (counted tol) problem_instances). lia.
  - intros Hc.
    enough (zsum (map count_of problem_instances)
            = Z.of_nat (length (flat_map poses_of problem_instances))) as ->
      by (specialize (Hv problem_instances); lia).
    clear Es. induction problem_instances as [|instance l IH];
      [reflexivity|].
    cbn [map zsum fold_right flat_map]. fold (zsum (map count_of l)).
    rewrite length_app, IH, (Hc instance (or_introl eq_refl)); [lia|].
    intros i Hi. apply Hc. now right.
Qed.

(** X13.  With no law of [<] assumed, not-a-number included: when
    [max < tol] is false, an instance is counted in [found_gt_pose_] only
    if one of the poses returned for it has an error below [tol]. *)
Theorem benchmark_found_sound (n_problems : Z) (options : Options) (tol : E)
    (result : BenchmarkResult Name Options) :
  dlt dmax tol = false ->
  benchmark n_problems options tol = Some result ->
  (found_gt_pose_ result
   <= Z.of_nat (length (filter (within tol)
                          (generate_problems n_problems options))))%Z.
Proof.
  intros Hmax Eb.
  pose proof (benchmark_spec n_problems options tol) as Es.
  cbv zeta in Es. rewrite Es in Eb.
  destruct (nth_error (std_sort durations) 5) as [runtime|];
    cbn [obind] in Eb; [|discriminate].
  injection Eb as <-. cbn [found_gt_pose_]. clear Es.
  apply inj_le.
  induction (generate_problems n_problems options) as [|instance l IH];
    cbn [filter]; [lia|].
  destruct (counted tol instance) eqn:Ec.
  - unfold counted in Ec. apply least_error_below in Ec.
    destruct Ec as [Ec|Ec]; [congruence|].
    fold (within tol instance) in Ec. rewrite Ec. cbn [length]. lia.
  - destruct (within tol instance); cbn [length]; lia.
Qed.

(** X14.  With the order laws of [<] on the errors and [max < tol] false,
    [found_gt_pose_] is the number of instances for which one of the poses
    returned has an error below [tol]. *)
Theorem benchmark_found_exact (n_problems : Z) (options : Options) (tol : E)
    (result : BenchmarkResult Name Options) :
  dlt_ordered ->
  dlt dmax tol = false ->
  benchmark n_problems options tol = Some result ->
  found_gt_pose_ result
  = Z.of_nat (length (filter (within tol)
                        (generate_problems n_problems options))).
Proof.
  intros Hord Hmax Eb.
  pose proof (benchmark_spec n_problems options tol) as Es.
  cbv zeta in Es. rewrite Es in Eb.
  destruct (nth_error (std_sort durations) 5) as [runtime|];
    cbn [obind] in Eb; [|discriminate].
  injection Eb as <-. cbn [found_gt_pose_].
  do 2 f_equal. apply filter_ext. intros instance.
  unfold counted, within.
  now rewrite (least_error_below_iff instance tol _ dmax Hord), Hmax.
Qed.

End BenchmarkFacts.

(** * The further properties on the samples *)

Import MoreSamples.

(** X2 on the sample, with a root finder that returns -3. *)
Lemma gp4ps_count_any_sample :
  (-3)%Z = n_sols_of (H0 := negative_count) A_ok /\
  [identity_pose]
  = [identity_pose] ++ appended [identity_pose] [identity_pose] /\
  Z.of_nat (length (appended [identity_pose] [identity_pose]))
  = Z.max 0 (-3) /\
  length (appended [identity_pose] [identity_pose]) <= 8.
Proof.
  exact (gp4ps_count_any (H0 := negative_count) p_ok x_ok X_ok
           [identity_pose] [identity_pose] A_ok (-3)%Z eq_refl eq_refl).
Defined.

(** X3 on the sample: [p[2]] moved, the world points replaced. *)
Lemma elim_B_first_two_sample :
  leading_block A_ok = leading_block A_none /\ elim_B A_ok = elim_B A_none.
Proof.
  exact (elim_B_first_two p_ok x_ok X_ok p_none x_ok X_ok A_ok A_none
           eq_refl eq_refl eq_refl eq_refl).
Defined.

(** X4 on the sample, for the quarter turn. *)
Lemma back_substitution_unique_sample :
  mvmul (ttake 4 (k := 4) A_ok)
        (tapp ([< 1; 0; 2; 2 >]%Z : Vector4d Z) (data rotZ)) = vzero 4 <->
  ([< 1; 0; 2; 2 >]%Z : Vector4d Z) = back_substitute A_ok (elim_B A_ok) rotZ.
Proof.
  exact (back_substitution_unique Zth A_ok rotZ [< 1; 0; 2; 2 >]%Z
           exact_inverse_ok).
Defined.

(** X5 on the sample: the quarter turn. *)
Lemma gp4ps_complete_sample :
  In turned_pose (appended [] [identity_pose; turned_pose]).
Proof.
  refine (gp4ps_complete Zth p_ok x_ok X_ok [] [identity_pose; turned_pose]
            A_ok 2%Z turned_pose [< 0; 0; 1 >]%Z eq_refl
            (sample_exact A_ok exact_inverse_ok) eq_refl eq_refl _).
  intros i pi xi Xi Ep Ex EX.
  destruct i as [|[|[|[|i]]]]; cbn in Ep, Ex, EX;
    try (destruct i; discriminate);
    injection Ep as <-; injection Ex as <-; injection EX as <-;
    (split; [intros Hi|intros Hi]); try lia; try discriminate;
    exists 0%Z; reflexivity.
Defined.

(** X6 on the sample: the identity pose, with depths 2, 1, 1 and 1. *)
Lemma gp4ps_recovers_pose_sample :
  In identity_pose (appended [] [identity_pose; turned_pose]).
Proof.
  refine (gp4ps_recovers_pose Zth p_ok x_ok X_ok []
            [identity_pose; turned_pose] A_ok 2%Z identity_pose
            [< 0; 0; 0 >]%Z eq_refl
            (sample_exact A_ok exact_inverse_ok) eq_refl eq_refl _).
  intros i pi xi Xi Hi Ep Ex EX.
  destruct i as [|[|[|[|i]]]]; [| | | |lia]; cbn in Ep, Ex, EX;
    injection Ep as <-; injection Ex as <-; injection EX as <-.
  - exists 2%Z. reflexivity.
  - exists 1%Z. reflexivity.
  - exists 1%Z. reflexivity.
  - exists 1%Z. reflexivity.
Defined.

Lemma Z_one_not_zero : (f1 : Z) <> f0.
Proof. discriminate. Qed.

(** X7 on the sample with the first ray in the plane [z = 0]. *)
Lemma leading_block_flat_ray_sample :
  (forall B, mmul (leading_block A_flat) B <> mone 4) /\
  ~ exact_inverse A_flat.
Proof.
  exact (leading_block_flat_ray Zth p_ok x_flat X_ok A_flat 0
           [< -1; 1; 0 >]%Z eq_refl Z_one_not_zero (Nat.lt_0_succ 1)
           eq_refl eq_refl).
Defined.

(** X8 on the sample with [p[0] = 2 x[0]] and [p[1] = 0]. *)
Lemma leading_block_offsets_along_rays_sample :
  (forall B, mmul B (leading_block A_along) <> mone 4) /\
  ~ exact_inverse A_along.
Proof.
  exact (leading_block_offsets_along_rays Zth p_along x_ok X_ok A_along
           [< -1; 1; 1 >]%Z [< 1; 0; 1 >]%Z 2%Z 0%Z eq_refl Z_one_not_zero
           eq_refl eq_refl eq_refl eq_refl).
Defined.

Lemma exact_inverse_flipped : exact_inverse A_flipped.
Proof. split; reflexivity. Qed.

Lemma flips_units : Forall (unit_factor (F := Z)) flips.
Proof.
  unfold flips. repeat constructor.
  - now exists (-1)%Z.
  - now exists 1%Z.
  - now exists (-1)%Z.
  - now exists 1%Z.
Qed.

(** X9 on the sample: the first and the third ray reversed. *)
Lemma gp4ps_ray_scale_sample :
  same_poses (gp4ps p_ok x_ok X_ok [])
             (gp4ps p_ok (scale_rays flips x_ok) X_ok []).
Proof.
  exact (gp4ps_ray_scale Zth flips p_ok x_ok X_ok A_ok A_flipped
           flips_units eq_refl eq_refl
           (sample_exact A_ok exact_inverse_ok)
           (sample_exact A_flipped exact_inverse_flipped)).
Defined.

(** X10 on the sample: the world points moved by [(1, 2, 3)]. *)
Lemma exact_inverse_moved : exact_inverse A_moved.
Proof. split; reflexivity. Qed.

Lemma gp4ps_world_move_sample :
  exists n out n' out',
    gp4ps p_ok x_ok X_ok [] = Some (n, out) /\
    gp4ps p_ok x_ok (move_world [< 1; 2; 3 >]%Z X_ok) [] = Some (n', out') /\
    forall pose, In pose out <-> In (moved_pose [< 1; 2; 3 >]%Z pose) out'.
Proof.
  exact (gp4ps_world_move Zth [< 1; 2; 3 >]%Z p_ok x_ok X_ok A_ok A_moved
           eq_refl eq_refl
           (sample_exact A_ok exact_inverse_ok)
           (sample_exact A_moved exact_inverse_moved)).
Defined.

(** X11 on the sample: the offsets reversed. *)
Lemma exact_inverse_reversed : exact_inverse A_reversed.
Proof. split; reflexivity. Qed.

Lemma gp4ps_offset_unit_sample :
  exists n out n' out',
    gp4ps p_ok x_ok X_ok [] = Some (n, out) /\
    gp4ps (scale_offsets (-1)%Z p_ok) x_ok X_ok [] = Some (n', out') /\
    forall pose, In pose out <-> In (rescaled_pose (-1)%Z pose) out'.
Proof.
  exact (gp4ps_offset_unit Zth (-1)%Z (-1)%Z p_ok x_ok X_ok A_ok A_reversed
           eq_refl eq_refl eq_refl
           (sample_exact A_ok exact_inverse_ok)
           (sample_exact A_reversed exact_inverse_reversed)).
Defined.

(** The result of the benchmark on the two sample problems. *)
Lemma sample_benchmark :
  benchmark (Name := unit) (Options := unit) (Instance := problem)
    (Pose := CameraPose Z) 2%Z tt 1%Z
  = Some {| instances_ := 2; name_ := tt; options_ := tt; solutions_ := 2;
            valid_solutions_ := 1; found_gt_pose_ := 1;
            runtime_ns_ := 21 |}%Z.
Proof. reflexivity. Qed.

Lemma Z_ltb_ordered : dlt_ordered (E := Z).
Proof.
  split; intros a b c; cbn [dlt Z_double]; rewrite ?Z.ltb_lt, ?Z.ltb_ge; lia.
Qed.

(** X12 on the sample: 2 poses returned, 1 valid, 1 instance counted. *)
Lemma benchmark_counters_sample :
  (2 = zsum (map count_of [ (p_ok, x_ok, X_ok); (p_none, x_ok, X_ok) ]) /\
   (0 <= 1 <= Z.of_nat (length
                (flat_map poses_of
                   [ (p_ok, x_ok, X_ok); (p_none, x_ok, X_ok) ]))) /\
   (0 <= 1 <= Z.of_nat 2) /\
   ((forall instance,
        In instance [ (p_ok, x_ok, X_ok); (p_none, x_ok, X_ok) ] ->
        count_of instance = Z.of_nat (length (poses_of instance))) ->
    1 <= 2))%Z.
Proof.
  exact (benchmark_counters 2%Z tt 1%Z _ sample_benchmark).
Defined.

(** X13 on the sample. *)
Lemma benchmark_found_sound_sample :
  (1 <= Z.of_nat (length (filter (within 1%Z)
                            [ (p_ok, x_ok, X_ok); (p_none, x_ok, X_ok) ])))%Z.
Proof.
  exact (benchmark_found_sound 2%Z tt 1%Z _ eq_refl sample_benchmark).
Defined.

(** X14 on the sample. *)
Lemma benchmark_found_exact_sample :
  1%Z = Z.of_nat (length (filter (within 1%Z)
                            [ (p_ok, x_ok, X_ok); (p_none, x_ok, X_ok) ])).
Proof.
  exact (benchmark_found_exact 2%Z tt 1%Z _ Z_ltb_ordered eq_refl
           sample_benchmark).
Defined.

